(** * The CNTK Python execution context (contrib/PythonV2/cntk/context.py)

    A shallow embedding of the module: the process-wide registry [_CONTEXT],
    [get_context], the classes [AbstractContext] and [LocalExecutionContext]
    with their precision property, the context-manager protocol, the
    unimplemented actions and [eval].

    Python objects have identity and are shared by reference, so contexts
    live in a heap indexed by locations and the registry maps handles to
    locations.  Exceptions are values of [result].  The native engine
    ([cntk_py]), the helpers of [cntk.utils] and the parts of the host
    ([os.path.abspath], numpy scalars) the module calls are an interface,
    [Backend]; every definition and theorem is parametric in it. *)

From Stdlib Require Import ZArith.
From stdpp Require Import gmap strings list fin_maps.

Local Open Scope string_scope.

(** ** Python exceptions and results *)

Module Py.

(** The exceptions the module can raise.  [KeyError] comes from [del d[k]]
    and [d[k]] on a missing key; [TypeError] from raising a non-exception.
    [SystemError] is used only for a method invoked on a location that
    holds no object, which Python itself cannot express. *)
Inductive Exception :=
| ValueError (msg : string)
| TypeError (msg : string)
| KeyError
| SystemError.

Inductive result (A : Type) :=
| Ok (a : A)
| Raise (e : Exception).
Arguments Ok {A} a.
Arguments Raise {A} e.

Definition dquote : string := String (Ascii.ascii_of_nat 34) EmptyString.

End Py.
Export Py.

(** ** os.path (posix) *)

Module OsPath.

Definition startswith_sep (s : string) : bool :=
  match s with
  | String c _ => bool_decide (c = Ascii.ascii_of_nat 47)
  | EmptyString => false
  end.

Fixpoint endswith_sep (s : string) : bool :=
  match s with
  | EmptyString => false
  | String c EmptyString => bool_decide (c = Ascii.ascii_of_nat 47)
  | String _ rest => endswith_sep rest
  end.

(** [posixpath.join a b] for two components. *)
Definition join (a b : string) : string :=
  if startswith_sep b then b
  else if bool_decide (a = EmptyString) || endswith_sep a then a +:+ b
  else a +:+ "/" +:+ b.

End OsPath.

(** ** numpy arrays *)

Module Np.

Inductive dtype := float32 | float64.

Record ndarray (Scalar : Type) := mk_ndarray {
  shape : list nat;
  dtype_of : dtype;
  data : list Scalar   (* the flat buffer, in C order *)
}.
Arguments mk_ndarray {Scalar}.
Arguments shape {Scalar}.
Arguments dtype_of {Scalar}.
Arguments data {Scalar}.

(** [a.size]: the product of the dimensions. *)
Definition size_of_shape (s : list nat) : nat := foldr Nat.mul 1 s.

(** [np.ones(shape, dtype=dt)] *)
Definition ones {Scalar} (one : Scalar) (s : list nat) (dt : dtype) : ndarray Scalar :=
  mk_ndarray s dt (replicate (size_of_shape s) one).

(** [a.reshape(newshape)]: same buffer and dtype under a new shape; numpy
    raises ValueError when the new shape has another number of elements
    (its message, which names the size and the shape, is shortened). *)
Definition reshape {Scalar} (a : ndarray Scalar) (newshape : list nat)
  : result (ndarray Scalar) :=
  if decide (size_of_shape newshape = size_of_shape (shape a))
  then Ok (mk_ndarray newshape (dtype_of a) (data a))
  else Raise (ValueError "cannot reshape array").

(** [tuple(reversed(s))] *)
Definition reversed (s : list nat) : list nat := reverse s.

(** The same buffer and dtype seen under the reversed shape. *)
Definition reversed_view {Scalar} (a : ndarray Scalar) : ndarray Scalar :=
  mk_ndarray (reversed (shape a)) (dtype_of a) (data a).

End Np.

(** ** The values context.py handles but does not define *)

(** The types of the native engine ([cntk_py]), of [cntk.utils] and of the
    host.  [Var] is the engine's Variable, hashable and so usable as a
    dictionary key; [PyObject] stands for an arbitrary argument value. *)
Class Carrier := {
  Var : Type;
  Var_eq_dec :: EqDecision Var;
  Var_countable :: Countable Var;
  Scalar : Type;
  one : Scalar;
  InputValue : Type;
  ValuePtr : Type;
  NDArrayView : Type;
  BackPropState : Type;
  Function : Type;
  DeviceDescriptor : Type;
  PyObject : Type
}.

Section ContextObject.
Context {T : Carrier}.

(** ** AbstractContext and LocalExecutionContext *)

(** The attributes [__init__] sets.  [_precision] is the attribute behind
    the [precision] property. *)
Record LocalExecutionContext := mk_context {
  directory : string;
  name : string;
  device_id : Z;
  _precision : string;
  input_nodes : gset Var;
  clean_up : bool;
  model_dir : string;
  model_path : string;
  device : DeviceDescriptor
}.

End ContextObject.

(** ** The native engine and the helpers of cntk.utils *)

(** What context.py imports and calls.  The engine works on its arguments
    in place: [Forward] fills the dictionary of outputs it is given and
    [Backward] the dictionary of gradients, so both return the dictionary
    as it is after the call. *)
Class Backend {T : Carrier} := {
  (* os.path *)
  abspath : string → string;
  (* cntk_py *)
  DeviceDescriptor_CPUDevice : DeviceDescriptor;
  DeviceDescriptor_GPUDevice : Z → DeviceDescriptor;
  Outputs : Function → list Var;
  Forward : Function → gmap Var ValuePtr → gmap Var ValuePtr → DeviceDescriptor
            → gset Var → BackPropState * gmap Var ValuePtr;
  Backward : Function → BackPropState → gmap Var ValuePtr → gmap Var ValuePtr
             → gmap Var ValuePtr;
  Data : ValuePtr → NDArrayView;
  ToNumPy : NDArrayView → Np.ndarray Scalar;
  (* cntk.utils *)
  sanitize_var_map : option (gmap Var InputValue) → LocalExecutionContext
                     → gmap Var ValuePtr;
  create_ValuePtr_for_Variable : Var → ValuePtr;
  create_ValuePtr_from_NumPy : Np.ndarray Scalar → DeviceDescriptor → ValuePtr
}.

Section Facade.
Context {T : Carrier} {B : Backend}.

(** The property getter. *)
Definition precision (self : LocalExecutionContext) : string := _precision self.

(** The check of the property setter: the value stored, or ValueError. *)
Definition precision_check (val : string) : result string :=
  if bool_decide (val ∈ ["float"; "double"])
  then Ok val
  else Raise (ValueError ("type " +:+ dquote +:+ val +:+ dquote +:+ " is not supported")).

(** The property setter on an existing object: [self.precision = val]. *)
Definition precision_setter (self : LocalExecutionContext) (val : string)
  : result LocalExecutionContext :=
  match precision_check val with
  | Ok p => Ok (mk_context (directory self) (name self) (device_id self) p
                 (input_nodes self) (clean_up self) (model_dir self)
                 (model_path self) (device self))
  | Raise e => Raise e
  end.

Definition precision_numpy (self : LocalExecutionContext) : Np.dtype :=
  if bool_decide (precision self = "float") then Np.float32 else Np.float64.

(** [LocalExecutionContext.__init__], with [AbstractContext.__init__]
    inlined at the [super] call.  Names are strings, so [tmpdir] is the
    name.  The object exists only if the precision setter did not raise. *)
Definition LocalExecutionContext_init
    (name : string) (device_id : Z) (precision : string) (clean_up : bool)
  : result LocalExecutionContext :=
  let tmpdir := name in
  let directory := abspath ("_cntk_" +:+ tmpdir) in
  match precision_check precision with
  | Raise e => Raise e
  | Ok p =>
      let model_dir := OsPath.join directory "Models" in
      let model_path := OsPath.join model_dir name in
      let device :=
        if bool_decide (device_id = (-1)%Z) then DeviceDescriptor_CPUDevice
        else DeviceDescriptor_GPUDevice device_id in
      Ok (mk_context directory name device_id p ∅ clean_up
            model_dir model_path device)
  end.

(** ** The interpreter state: objects and the registry *)

Definition loc := nat.

Record World := mk_world {
  heap : gmap loc LocalExecutionContext;
  _CONTEXT : gmap string loc
}.

(** Computations that read and write the world and may raise. *)
Definition W (A : Type) : Type := World → result A * World.

Definition wret {A} (a : A) : W A := λ w, (Ok a, w).
Definition wraise {A} (e : Exception) : W A := λ w, (Raise e, w).
Definition wbind {A C} (m : W A) (k : A → W C) : W C :=
  λ w, match m w with
       | (Ok a, w') => k a w'
       | (Raise e, w') => (Raise e, w')
       end.

Local Notation "x <- m ;; k" := (wbind m (λ x, k))
  (at level 100, m at next level, right associativity).

(** Allocation of a new object. *)
Definition new_object (c : LocalExecutionContext) : W loc :=
  λ w, let l := fresh (dom (heap w)) in
       (Ok l, mk_world (<[l := c]> (heap w)) (_CONTEXT w)).

(** Reading the object behind a reference. *)
Definition deref (self : loc) : W LocalExecutionContext :=
  λ w, match heap w !! self with
       | Some c => (Ok c, w)
       | None => (Raise SystemError, w)
       end.

(** [k in _CONTEXT], [_CONTEXT[k] = l], [_CONTEXT[k]] and [del _CONTEXT[k]]. *)
Definition registry_contains (k : string) : W bool :=
  λ w, (Ok (bool_decide (is_Some (_CONTEXT w !! k))), w).

Definition registry_setitem (k : string) (l : loc) : W unit :=
  λ w, (Ok tt, mk_world (heap w) (<[k := l]> (_CONTEXT w))).

Definition registry_getitem (k : string) : W loc :=
  λ w, match _CONTEXT w !! k with
       | Some l => (Ok l, w)
       | None => (Raise KeyError, w)
       end.

Definition registry_delitem (k : string) : W unit :=
  λ w, match _CONTEXT w !! k with
       | Some _ => (Ok tt, mk_world (heap w) (delete k (_CONTEXT w)))
       | None => (Raise KeyError, w)
       end.

(** [LocalExecutionContext(name, device_id, precision, clean_up)]: the object
    exists once [__init__] has returned. *)
Definition LocalExecutionContext_new (name : string) (device_id : Z)
    (precision : string) (clean_up : bool) : W loc :=
  match LocalExecutionContext_init name device_id precision clean_up with
  | Ok c => new_object c
  | Raise e => wraise e
  end.

(** ** get_context *)

Definition get_context (handle : option string) : W loc :=
  let handle := match handle with None => "default" | Some h => h end in
  present <- registry_contains handle ;;
  _ <- (if negb present
        then l <- LocalExecutionContext_new handle (-1)%Z "float" true ;;
             registry_setitem handle l
        else wret tt) ;;
  registry_getitem handle.

(** A run of calls of [get_context], keeping the state only. *)
Definition get_contexts (handles : list (option string)) (w : World) : World :=
  foldl (λ w h, (get_context h w).2) w handles.

(** Every registered handle refers to an object. *)
Definition registry_wf (w : World) : Prop :=
  ∀ k l, _CONTEXT w !! k = Some l → is_Some (heap w !! l).

(** ** The context manager *)

Definition __enter__ (self : loc) : W loc :=
  c <- deref self ;;
  _ <- registry_setitem (name c) self ;;
  wret self.

(** [__exit__] ignores the exception it is told about and returns None. *)
Definition __exit__ (self : loc) (exc : option Exception) : W unit :=
  c <- deref self ;;
  registry_delitem (name c).

(** The with statement of the language, [with self as target: body]:
    [__exit__] runs whether the body returns or raises; as it returns None
    the exception of the body is raised again after it; an exception of
    [__exit__] itself replaces it. *)
Definition with_statement {A} (self : loc) (body : loc → W A) : W A :=
  λ w, match __enter__ self w with
       | (Raise e, w1) => (Raise e, w1)
       | (Ok target, w1) =>
           match body target w1 with
           | (Ok a, w2) =>
               match __exit__ self None w2 with
               | (Ok _, w3) => (Ok a, w3)
               | (Raise e', w3) => (Raise e', w3)
               end
           | (Raise e, w2) =>
               match __exit__ self (Some e) w2 with
               | (Ok _, w3) => (Raise e, w3)
               | (Raise e', w3) => (Raise e', w3)
               end
           end
       end.

(** ** train, test, write *)

(** [raise NotImplemented]: NotImplemented is not an exception, so the
    raise statement itself fails with TypeError. *)
Definition raise_NotImplemented {A} : W A :=
  wraise (TypeError "exceptions must derive from BaseException").

Definition train (self : loc) (root_nodes training_params : PyObject)
    (input_map : option PyObject) (override_existing : bool) : W PyObject :=
  raise_NotImplemented.

Definition test (self : loc) (root_nodes input_map : option PyObject) : W PyObject :=
  raise_NotImplemented.

Definition write (self : loc) (input_map : option PyObject) : W PyObject :=
  raise_NotImplemented.

(** Attribute assignment through the property: [self.precision = val]. *)
Definition set_precision (self : loc) (val : string) : W unit :=
  c <- deref self ;;
  match precision_setter c val with
  | Ok c' => λ w, (Ok tt, mk_world (<[self := c']> (heap w)) (_CONTEXT w))
  | Raise e => wraise e
  end.

(** [device] and [device_id] are plain attributes: [__init__] stores them
    (lines 84 and 193-196) and the class defines no property, no
    [__setattr__] and no [__slots__] for them, so the assignments
    [self.device = d] and [self.device_id = i] store the value given. *)
Definition set_device (self : loc) (d : DeviceDescriptor) : W unit :=
  c <- deref self ;;
  λ w, (Ok tt,
        mk_world (<[self := mk_context (directory c) (name c) (device_id c)
                              (_precision c) (input_nodes c) (clean_up c)
                              (model_dir c) (model_path c) d]> (heap w))
                 (_CONTEXT w)).

Definition set_device_id (self : loc) (i : Z) : W unit :=
  c <- deref self ;;
  λ w, (Ok tt,
        mk_world (<[self := mk_context (directory c) (name c) i
                              (_precision c) (input_nodes c) (clean_up c)
                              (model_dir c) (model_path c) (device c)]> (heap w))
                 (_CONTEXT w)).

(** ** eval *)

(** The calls of [sanitize_var_map] and of the passes of the engine, in the
    order they are made.  The constructors of engine values,
    [create_ValuePtr_for_Variable] and [create_ValuePtr_from_NumPy], are
    functions of their arguments and are not recorded. *)
Inductive EngineCall :=
| Call_sanitize_var_map (var_map : option (gmap Var InputValue))
    (ctx : LocalExecutionContext)
| Call_Forward (op : Function) (arguments outputs : gmap Var ValuePtr)
    (dev : DeviceDescriptor) (retain : gset Var)
| Call_Backward (op : Function) (state : BackPropState)
    (root_gradients backward_var_map : gmap Var ValuePtr).

Definition is_Backward (c : EngineCall) : bool :=
  match c with Call_Backward _ _ _ _ => true | _ => false end.

(** A result or an exception, with the calls made up to there. *)
Definition M (A : Type) : Type := result A * list EngineCall.

Definition mret' {A} (a : A) : M A := (Ok a, []).
Definition lift {A} (r : result A) : M A := (r, []).
Definition call {A} (c : EngineCall) (a : A) : M A := (Ok a, [c]).
Definition mbind' {A C} (m : M A) (k : A → M C) : M C :=
  match m with
  | (Ok a, t) => let '(r, t') := k a in (r, (t ++ t')%list)
  | (Raise e, t) => (Raise e, t)
  end.

Local Notation "x <~ m ;; k" := (mbind' m (λ x, k))
  (at level 100, m at next level, right associativity).

(** What [eval] returns: the forward result alone, or the tuple. *)
Inductive EvalResult :=
| ForwardOnly (forward_output : gmap Var (Np.ndarray Scalar))
| ForwardBackward (forward_output backward_output : gmap Var (Np.ndarray Scalar)).

(** Lines 263-265.  Key views of dictionaries compare as sets. *)
Definition check_keys (input_map gradient_map : option (gmap Var InputValue))
  : result unit :=
  match input_map, gradient_map with
  | Some im, Some gm =>
      if bool_decide (dom im ≠ dom gm)
      then Raise (ValueError "input_map and gradient_map have dijunct keys")
      else Ok tt
  | _, _ => Ok tt
  end.

(** Lines 269-273: the dictionary of outputs and the retain set. *)
Definition forward_outputs_init (vs : list Var) : gmap Var ValuePtr * gset Var :=
  foldl (λ acc v, (<[v := create_ValuePtr_for_Variable v]> acc.1, {[v]} ∪ acc.2))
        (∅, ∅) vs.

(** [val.Data().ToNumPy()] reshaped to its reversed shape. *)
Definition to_host (val : ValuePtr) : result (Np.ndarray Scalar) :=
  let np_data := ToNumPy (Data val) in
  Np.reshape np_data (Np.reversed (Np.shape np_data)).

(** Lines 277-281. *)
Fixpoint collect_forward (vs : list Var) (forward_out_var_map : gmap Var ValuePtr)
    (forward_output : gmap Var (Np.ndarray Scalar))
  : result (gmap Var (Np.ndarray Scalar)) :=
  match vs with
  | [] => Ok forward_output
  | v :: vs' =>
      match forward_out_var_map !! v with
      | None => Raise KeyError
      | Some val =>
          match to_host val with
          | Raise e => Raise e
          | Ok np_data =>
              collect_forward vs' forward_out_var_map (<[v := np_data]> forward_output)
          end
      end
  end.

(** Lines 284-289: one seed per forward output. *)
Definition seed_gradient (self : LocalExecutionContext) (o : Np.ndarray Scalar)
  : ValuePtr :=
  let ones_grad := Np.ones one (Np.shape o) (precision_numpy self) in
  create_ValuePtr_from_NumPy ones_grad (device self).

Definition root_gradients_of (self : LocalExecutionContext)
    (forward_output : gmap Var (Np.ndarray Scalar)) : gmap Var ValuePtr :=
  seed_gradient self <$> forward_output.

(** Lines 294-298, over the items of the dictionary. *)
Fixpoint collect_backward (items : list (Var * ValuePtr))
    (backward_output : gmap Var (Np.ndarray Scalar))
  : result (gmap Var (Np.ndarray Scalar)) :=
  match items with
  | [] => Ok backward_output
  | (var, val) :: items' =>
      match to_host val with
      | Raise e => Raise e
      | Ok np_data => collect_backward items' (<[var := np_data]> backward_output)
      end
  end.

(** [if gradient_map:] is false for None and for the empty dictionary. *)
Definition truthy (gradient_map : option (gmap Var InputValue)) : bool :=
  match gradient_map with
  | None => false
  | Some gm => bool_decide (gm ≠ ∅)
  end.

(** The arguments and the result of the one call of [op.Forward]. *)
Definition forward_call (self : LocalExecutionContext) (op : Function)
    (input_map : option (gmap Var InputValue))
  : BackPropState * gmap Var ValuePtr :=
  let forward_in_var_map := sanitize_var_map input_map self in
  let init := forward_outputs_init (Outputs op) in
  Forward op forward_in_var_map init.1 (device self) init.2.

Definition eval (self : LocalExecutionContext) (op : Function)
    (input_map gradient_map : option (gmap Var InputValue)) : M EvalResult :=
  _ <~ lift (check_keys input_map gradient_map) ;;
  forward_in_var_map <~ call (Call_sanitize_var_map input_map self)
                             (sanitize_var_map input_map self) ;;
  let init := forward_outputs_init (Outputs op) in
  let forward_out_var_map := init.1 in
  let forward_retain := init.2 in
  fw <~ call (Call_Forward op forward_in_var_map forward_out_var_map
                           (device self) forward_retain)
             (Forward op forward_in_var_map forward_out_var_map
                      (device self) forward_retain) ;;
  let state := fw.1 in
  let forward_out_var_map := fw.2 in
  forward_output <~ lift (collect_forward (Outputs op) forward_out_var_map ∅) ;;
  if truthy gradient_map then
    let root_gradients := root_gradients_of self forward_output in
    backward_var_map <~ call (Call_sanitize_var_map gradient_map self)
                             (sanitize_var_map gradient_map self) ;;
    backward_var_map <~ call (Call_Backward op state root_gradients backward_var_map)
                             (Backward op state root_gradients backward_var_map) ;;
    backward_output <~ lift (collect_backward (map_to_list backward_var_map) ∅) ;;
    mret' (ForwardBackward forward_output backward_output)
  else
    mret' (ForwardOnly forward_output).

(** The engine's Forward has left every output of [op] in the dictionary of
    outputs, so that the lookups of lines 278-279 find their keys. *)
Definition forward_filled (self : LocalExecutionContext) (op : Function)
    (input_map : option (gmap Var InputValue)) : Prop :=
  Forall (λ v, is_Some ((forward_call self op input_map).2 !! v)) (Outputs op).

(** The dictionary of gradients after the one call of [op.Backward]. *)
Definition backward_call (self : LocalExecutionContext) (op : Function)
    (input_map gradient_map : option (gmap Var InputValue))
    (forward_output : gmap Var (Np.ndarray Scalar)) : gmap Var ValuePtr :=
  Backward op (forward_call self op input_map).1
           (root_gradients_of self forward_output)
           (sanitize_var_map gradient_map self).

(** The calls of a forward pass and those a backward pass adds. *)
Definition forward_trace (self : LocalExecutionContext) (op : Function)
    (input_map : option (gmap Var InputValue)) : list EngineCall :=
  let init := forward_outputs_init (Outputs op) in
  [Call_sanitize_var_map input_map self;
   Call_Forward op (sanitize_var_map input_map self) init.1 (device self) init.2].

Definition backward_trace (self : LocalExecutionContext) (op : Function)
    (input_map gradient_map : option (gmap Var InputValue))
    (forward_output : gmap Var (Np.ndarray Scalar)) : list EngineCall :=
  [Call_sanitize_var_map gradient_map self;
   Call_Backward op (forward_call self op input_map).1
                 (root_gradients_of self forward_output)
                 (sanitize_var_map gradient_map self)].

(** The forward part of what [eval] returned. *)
Definition forward_part (r : EvalResult) : gmap Var (Np.ndarray Scalar) :=
  match r with
  | ForwardOnly forward_output => forward_output
  | ForwardBackward forward_output _ => forward_output
  end.

(** ** The methods of a context as one interface *)

Inductive MethodCall :=
| Call_enter
| Call_exit (exc : option Exception)
| Call_train (root_nodes training_params : PyObject) (input_map : option PyObject)
    (override_existing : bool)
| Call_test (root_nodes input_map : option PyObject)
| Call_write (input_map : option PyObject)
| Call_eval (op : Function) (input_map gradient_map : option (gmap Var InputValue)).

Inductive PyValue :=
| V_None
| V_context (l : loc)
| V_object (o : PyObject)
| V_eval (r : EvalResult).

Definition invoke (self : loc) (m : MethodCall) : W PyValue :=
  match m with
  | Call_enter => l <- __enter__ self ;; wret (V_context l)
  | Call_exit exc => _ <- __exit__ self exc ;; wret V_None
  | Call_train r p i o => v <- train self r p i o ;; wret (V_object v)
  | Call_test r i => v <- test self r i ;; wret (V_object v)
  | Call_write i => v <- write self i ;; wret (V_object v)
  | Call_eval op im gm =>
      c <- deref self ;;
      r <- (λ w, ((eval c op im gm).1, w)) ;;
      wret (V_eval r)
  end.

(** ** get_new_context *)

(** The loop draws a handle, [str(np.random.random())[2:]], until one is not
    registered, and then calls [get_context] with it.  The values drawn in
    the successive rounds are given as [draws]; the result is None when all
    of them are registered, the loop then being still under way. *)
Fixpoint get_new_context (draws : list string) (w : World)
  : option (result loc * World) :=
  match draws with
  | [] => None
  | new_handle :: draws' =>
      if bool_decide (is_Some (_CONTEXT w !! new_handle))
      then get_new_context draws' w
      else Some (get_context (Some new_handle) w)
  end.

(** ** The states the module can be in *)

(** The state when the module has been imported: [_CONTEXT = {}] and no
    context exists. *)
Definition initial_world : World := mk_world ∅ ∅.

(** One use of the module: a construction, a call of one of its functions,
    of a method of a context, or an assignment to the precision property. *)
Inductive step : World → World → Prop :=
| step_construct name device_id precision clean_up w r w' :
    LocalExecutionContext_new name device_id precision clean_up w = (r, w') →
    step w w'
| step_get_context handle w r w' :
    get_context handle w = (r, w') → step w w'
| step_get_new_context draws w r w' :
    get_new_context draws w = Some (r, w') → step w w'
| step_invoke self m w r w' :
    invoke self m w = (r, w') → step w w'
| step_set_precision self val w r w' :
    set_precision self val w = (r, w') → step w w'.

Definition reachable (w : World) : Prop := rtc step initial_world w.

(** Every registered handle refers to an existing context, whose name is
    the handle. *)
Definition registry_consistent (w : World) : Prop :=
  ∀ k l, _CONTEXT w !! k = Some l → ∃ c, heap w !! l = Some c ∧ name c = k.

(** Every context has one of the two precisions. *)
Definition precisions_valid (w : World) : Prop :=
  ∀ l c, heap w !! l = Some c → precision c = "float" ∨ precision c = "double".

End Facade.

(** ** A small engine to run the definitions on *)

Module Toy.

(** Variables are numbers, scalars integers, engine values are arrays, a
    function is the list of its outputs and a device its index. *)
#[local] Instance carrier : Carrier := {|
  Var := nat;
  Scalar := Z;
  one := 1%Z;
  InputValue := list Z;
  ValuePtr := Np.ndarray Z;
  NDArrayView := Np.ndarray Z;
  BackPropState := unit;
  Function := list nat;
  DeviceDescriptor := Z;
  PyObject := unit
|}.

Definition vector (dt : Np.dtype) (xs : list Z) : Np.ndarray Z :=
  Np.mk_ndarray [length xs] dt xs.

(** [Forward] writes a 2x3 array into every output it is given and
    [Backward] a 3x1x2 array into every gradient. *)
#[local] Instance backend : Backend := {|
  abspath := λ p, "/work/" +:+ p;
  DeviceDescriptor_CPUDevice := (-1)%Z;
  DeviceDescriptor_GPUDevice := λ i, i;
  Outputs := λ op, op;
  Forward := λ _ _ outputs _ _,
    (tt, (λ _, Np.mk_ndarray [2; 3] Np.float32 [1; 2; 3; 4; 5; 6]%Z) <$> outputs);
  Backward := λ _ _ _ grads,
    (λ _, Np.mk_ndarray [3; 1; 2] Np.float32 [7; 8; 9; 10; 11; 12]%Z) <$> grads;
  Data := λ v, v;
  ToNumPy := λ v, v;
  sanitize_var_map := λ m ctx,
    match m with
    | None => ∅
    | Some m => vector (precision_numpy ctx) <$> m
    end;
  create_ValuePtr_for_Variable := λ _, vector Np.float32 [];
  create_ValuePtr_from_NumPy := λ a _, a
|}.

(** The same engine, except that its Forward drops the output 2 from the
    dictionary. *)
Definition lossy_backend : Backend := {|
  abspath := λ p, "/work/" +:+ p;
  DeviceDescriptor_CPUDevice := (-1)%Z;
  DeviceDescriptor_GPUDevice := λ i, i;
  Outputs := λ op, op;
  Forward := λ _ _ outputs _ _,
    (tt, delete 2 ((λ _, Np.mk_ndarray [2; 3] Np.float32 [1; 2; 3; 4; 5; 6]%Z)
                     <$> outputs));
  Backward := λ _ _ _ grads,
    (λ _, Np.mk_ndarray [3; 1; 2] Np.float32 [7; 8; 9; 10; 11; 12]%Z) <$> grads;
  Data := λ v, v;
  ToNumPy := λ v, v;
  sanitize_var_map := λ m ctx,
    match m with
    | None => ∅
    | Some m => vector (precision_numpy ctx) <$> m
    end;
  create_ValuePtr_for_Variable := λ _, vector Np.float32 [];
  create_ValuePtr_from_NumPy := λ a _, a
|}.

Definition empty_world : World := mk_world ∅ ∅.

(** A function with the outputs 1 and 2, a dictionary with the key 5 and one
    with the key 6. *)
Definition op : list nat := [1; 2].
Definition at5 : gmap nat (list Z) := {[ 5 := [1%Z] ]}.
Definition at6 : gmap nat (list Z) := {[ 6 := [1%Z] ]}.

(** What eval returns for [op] with this engine. *)
Definition forward_output : gmap nat (Np.ndarray Z) :=
  let a := Np.mk_ndarray [3; 2] Np.float32 [1; 2; 3; 4; 5; 6]%Z in
  {[ 1 := a; 2 := a ]}.

Definition backward_output (key : nat) : gmap nat (Np.ndarray Z) :=
  {[ key := Np.mk_ndarray [2; 1; 3] Np.float32 [7; 8; 9; 10; 11; 12]%Z ]}.

(** The state after [LocalExecutionContext('c')] with the defaults: the
    context is the object 0. *)
Definition world_c : World :=
  (LocalExecutionContext_new "c" (-1) "float" true empty_world).2.

(** The state after [get_context('a')] and then [get_context()]: the
    contexts are the objects 0 and 1. *)
Definition world_a_default : World :=
  (get_context None (get_context (Some "a") empty_world).2).2.

(** A body of a with statement that fails. *)
Definition failing_body : loc → W unit :=
  λ _ w, (Raise (ValueError "failure in the body"), w).

Definition ctx (precision : string) : LocalExecutionContext :=
  mk_context "/work/_cntk_c" "c" (-1) precision ∅ true
    "/work/_cntk_c/Models" "/work/_cntk_c/Models/c" (-1)%Z.

(** The state inside [with LocalExecutionContext('c'):] after a call of
    [get_context()]: the objects 0 and 1 are registered as 'c' and
    'default'. *)
Definition world_c_entered : World :=
  (get_context None (__enter__ 0 world_c).2).2.

(** The context a name with a leading slash gives. *)
Definition ctx_slash : LocalExecutionContext :=
  mk_context "/work/_cntk_/x" "/x" (-1) "float" ∅ true
    "/work/_cntk_/x/Models" "/x" (-1)%Z.

End Toy.

(** * Properties *)

Section FacadeProperties.
Context {T : Carrier} {B : Backend}.

Implicit Types (w : World) (self l : loc) (c : LocalExecutionContext).

Local Arguments eval : simpl never.

(** ** Construction and the precision property *)

Lemma precision_check_valid (p : string) :
  p = "float" ∨ p = "double" → precision_check p = Ok p.
Proof.
  intros Hp. unfold precision_check.
  rewrite bool_decide_eq_true_2; [reflexivity|].
  rewrite !elem_of_cons. tauto.
Qed.

Lemma precision_check_invalid (p : string) :
  p ≠ "float" → p ≠ "double" →
  precision_check p =
    Raise (ValueError ("type " +:+ dquote +:+ p +:+ dquote +:+ " is not supported")).
Proof.
  intros Hf Hd. unfold precision_check.
  rewrite bool_decide_eq_false_2; [reflexivity|].
  rewrite !elem_of_cons, elem_of_nil. tauto.
Qed.

Lemma precision_check_inv (p q : string) :
  precision_check p = Ok q → q = p ∧ (p = "float" ∨ p = "double").
Proof.
  unfold precision_check. case_bool_decide as Hin; [|discriminate].
  intros [= <-]. split; [reflexivity|].
  revert Hin. rewrite !elem_of_cons, elem_of_nil. tauto.
Qed.

Lemma init_precision name dev p cu c :
  LocalExecutionContext_init name dev p cu = Ok c →
  precision c = p ∧ (p = "float" ∨ p = "double").
Proof.
  unfold LocalExecutionContext_init.
  destruct (precision_check p) as [q|e] eqn:Hq; [|discriminate].
  apply precision_check_inv in Hq as [-> Hp]. intros [= <-]. by split.
Qed.

Lemma fresh_not_allocated w : heap w !! fresh (dom (heap w)) = None.
Proof. apply not_elem_of_dom, is_fresh. Qed.

(** C4: a precision other than 'float' and 'double' makes the construction
    fail with ValueError, and no object is allocated; with 'float' or
    'double' the construction returns a new object whose precision is the
    one given. *)
Theorem construction_checks_precision w name dev p cu :
  (p ≠ "float" → p ≠ "double" →
     ∃ msg, LocalExecutionContext_init name dev p cu = Raise (ValueError msg)
            ∧ LocalExecutionContext_new name dev p cu w = (Raise (ValueError msg), w))
  ∧ (p = "float" ∨ p = "double" →
     ∃ c l w', LocalExecutionContext_init name dev p cu = Ok c
            ∧ precision c = p
            ∧ LocalExecutionContext_new name dev p cu w = (Ok l, w')
            ∧ heap w !! l = None ∧ heap w' !! l = Some c).
Proof.
  split.
  - intros Hf Hd. eexists.
    unfold LocalExecutionContext_new, LocalExecutionContext_init.
    rewrite (precision_check_invalid p Hf Hd). split; reflexivity.
  - intros Hp.
    unfold LocalExecutionContext_new, LocalExecutionContext_init.
    rewrite (precision_check_valid p Hp). cbv zeta.
    eexists _, _, _. split; [reflexivity|]. split; [reflexivity|].
    split; [reflexivity|]. split; [apply fresh_not_allocated|].
    cbn. apply lookup_insert_eq.
Qed.

(** ** train, test, write *)

(** C9: train, test and write raise on every input, whatever the state, and
    leave the state, hence the context, as it was. *)
Theorem unimplemented_actions_raise self w :
  (∀ root_nodes training_params input_map override_existing,
      ∃ e, train self root_nodes training_params input_map override_existing w
           = (Raise e, w))
  ∧ (∀ root_nodes input_map, ∃ e, test self root_nodes input_map w = (Raise e, w))
  ∧ (∀ input_map, ∃ e, write self input_map w = (Raise e, w))
  ∧ (∀ r p i o, ∃ e, invoke self (Call_train r p i o) w = (Raise e, w))
  ∧ (∀ r i, ∃ e, invoke self (Call_test r i) w = (Raise e, w))
  ∧ (∀ i, ∃ e, invoke self (Call_write i) w = (Raise e, w)).
Proof. repeat split; intros; eexists; reflexivity. Qed.

(** ** The registry and get_context *)

Lemma get_context_registered w h l :
  _CONTEXT w !! h = Some l → get_context (Some h) w = (Ok l, w).
Proof.
  intros Hl. unfold get_context, wbind, registry_contains, registry_getitem, wret.
  rewrite Hl. rewrite bool_decide_eq_true_2 by eauto. cbn. by rewrite Hl.
Qed.

Lemma get_context_unregistered w h :
  _CONTEXT w !! h = None →
  ∃ c, LocalExecutionContext_init h (-1) "float" true = Ok c
       ∧ get_context (Some h) w
         = (Ok (fresh (dom (heap w))),
            mk_world (<[fresh (dom (heap w)) := c]> (heap w))
                     (<[h := fresh (dom (heap w))]> (_CONTEXT w))).
Proof.
  intros Hl.
  unfold get_context, wbind, registry_contains, registry_getitem,
    registry_setitem, wret, LocalExecutionContext_new, LocalExecutionContext_init.
  rewrite (precision_check_valid "float") by auto. cbv zeta.
  eexists. split; [reflexivity|].
  rewrite Hl. rewrite bool_decide_eq_false_2 by (intros [? ?]; discriminate).
  cbn. by rewrite lookup_insert_eq.
Qed.

(** [get_context] returns for every handle and keeps what is registered and
    allocated. *)
Lemma get_context_step w h :
  registry_wf w →
  ∃ l w', get_context h w = (Ok l, w')
    ∧ registry_wf w'
    ∧ (∀ k l', _CONTEXT w !! k = Some l' → _CONTEXT w' !! k = Some l')
    ∧ (∀ l' c, heap w !! l' = Some c → heap w' !! l' = Some c).
Proof.
  intros Hwf.
  assert (∀ k, ∃ l w', get_context (Some k) w = (Ok l, w')
    ∧ registry_wf w'
    ∧ (∀ k l', _CONTEXT w !! k = Some l' → _CONTEXT w' !! k = Some l')
    ∧ (∀ l' c, heap w !! l' = Some c → heap w' !! l' = Some c)) as Hsome.
  { intros k. destruct (_CONTEXT w !! k) as [l|] eqn:Hk.
    - exists l, w. rewrite (get_context_registered w k l Hk). auto.
    - destruct (get_context_unregistered w k Hk) as (c & _ & ->).
      eexists _, _. split; [reflexivity|]. cbn. repeat split.
      + intros k' l'. cbn. rewrite lookup_insert. case_decide as Hkk.
        * intros [= <-]. rewrite lookup_insert_eq. eauto.
        * intros Hl'. destruct (Hwf _ _ Hl') as [c' Hc'].
          rewrite lookup_insert_ne; [eauto|].
          intros <-. by rewrite fresh_not_allocated in Hc'.
      + intros k' l' Hl'. rewrite lookup_insert_ne; [done|]. congruence.
      + intros l' c' Hc'. rewrite lookup_insert_ne; [done|].
        intros <-. by rewrite fresh_not_allocated in Hc'. }
  destruct h as [k|]; [apply Hsome|apply (Hsome "default")].
Qed.

(** A new object never takes the place of an existing one. *)
Lemma get_context_keeps_heap w h l c :
  heap w !! l = Some c → heap (get_context h w).2 !! l = Some c.
Proof.
  intros Hc.
  assert (∀ k, heap (get_context (Some k) w).2 !! l = Some c) as Hsome.
  { intros k. destruct (_CONTEXT w !! k) as [l0|] eqn:Hk.
    - by rewrite (get_context_registered w k l0 Hk).
    - destruct (get_context_unregistered w k Hk) as (c0 & _ & ->). cbn.
      rewrite lookup_insert_ne; [done|].
      intros <-. by rewrite fresh_not_allocated in Hc. }
  destruct h as [k|]; [apply Hsome|apply (Hsome "default")].
Qed.

Lemma get_contexts_keep hs : ∀ w,
  registry_wf w →
  registry_wf (get_contexts hs w)
  ∧ (∀ k l, _CONTEXT w !! k = Some l → _CONTEXT (get_contexts hs w) !! k = Some l)
  ∧ (∀ l c, heap w !! l = Some c → heap (get_contexts hs w) !! l = Some c).
Proof.
  induction hs as [|h hs IH]; intros w Hwf; [by auto|].
  change (get_contexts (h :: hs) w) with (get_contexts hs (get_context h w).2).
  destruct (get_context_step w h Hwf) as (l & w' & Hg & Hwf' & Hreg & Hheap).
  rewrite Hg. cbn [snd]. destruct (IH w' Hwf') as (Hwf'' & Hreg' & Hheap').
  repeat split; auto.
Qed.

(** C10: the call of [get_context] with an unregistered handle allocates a
    new context with the default arguments and registers it under the
    handle; after any further calls of [get_context] a call with the same
    handle returns the same object, which those calls have not changed, and
    itself changes nothing; handle None is handle 'default'. *)
Theorem get_context_idempotent w h hs :
  registry_wf w →
  ∃ l c w1,
    get_context (Some h) w = (Ok l, w1)
    ∧ heap w1 !! l = Some c
    ∧ (_CONTEXT w !! h = None →
         heap w !! l = None
         ∧ LocalExecutionContext_init h (-1) "float" true = Ok c
         ∧ _CONTEXT w1 = <[h := l]> (_CONTEXT w))
    ∧ get_context (Some h) w1 = (Ok l, w1)
    ∧ get_context (Some h) (get_contexts hs w1) = (Ok l, get_contexts hs w1)
    ∧ heap (get_contexts hs w1) !! l = Some c
    ∧ get_context None w = get_context (Some "default") w.
Proof.
  intros Hwf.
  destruct (get_context_step w (Some h) Hwf) as (l & w1 & Hg & Hwf1 & _ & _).
  assert (_CONTEXT w1 !! h = Some l) as Hreg1.
  { destruct (_CONTEXT w !! h) as [l0|] eqn:Hh.
    - rewrite (get_context_registered w h l0 Hh) in Hg. by injection Hg as <- <-.
    - destruct (get_context_unregistered w h Hh) as (c & _ & Hg').
      rewrite Hg' in Hg. injection Hg as <- <-. cbn. apply lookup_insert_eq. }
  destruct (Hwf1 _ _ Hreg1) as [c Hc].
  destruct (get_contexts_keep hs w1 Hwf1) as (_ & Hreg & Hheap).
  exists l, c, w1. repeat split.
  - exact Hg.
  - exact Hc.
  - destruct (get_context_unregistered w h H) as (c' & Hinit & Hg').
    rewrite Hg' in Hg. injection Hg as <- <-. apply fresh_not_allocated.
  - destruct (get_context_unregistered w h H) as (c' & Hinit & Hg').
    rewrite Hg' in Hg. injection Hg as <- <-. cbn in Hc.
    rewrite lookup_insert_eq in Hc. congruence.
  - destruct (get_context_unregistered w h H) as (c' & Hinit & Hg').
    rewrite Hg' in Hg. by injection Hg as <- <-.
  - by apply get_context_registered.
  - by apply get_context_registered, Hreg.
  - by apply Hheap.
Qed.

(** ** The context manager *)

Lemma enter_spec w self c :
  heap w !! self = Some c →
  __enter__ self w = (Ok self, mk_world (heap w) (<[name c := self]> (_CONTEXT w))).
Proof.
  intros Hc. unfold __enter__, wbind, deref, registry_setitem, wret.
  by rewrite Hc.
Qed.

Lemma exit_registered w self c exc l :
  heap w !! self = Some c → _CONTEXT w !! name c = Some l →
  __exit__ self exc w = (Ok tt, mk_world (heap w) (delete (name c) (_CONTEXT w))).
Proof.
  intros Hc Hl. unfold __exit__, wbind, deref, registry_delitem.
  by rewrite Hc, Hl.
Qed.

Lemma exit_unregistered w self c exc :
  heap w !! self = Some c → _CONTEXT w !! name c = None →
  __exit__ self exc w = (Raise KeyError, w).
Proof.
  intros Hc Hl. unfold __exit__, wbind, deref, registry_delitem.
  by rewrite Hc, Hl.
Qed.

(** After [__exit__] the name of the context is not registered, whether the
    deletion succeeded or found nothing to delete. *)
Lemma exit_deregisters w self c exc :
  heap w !! self = Some c →
  _CONTEXT (__exit__ self exc w).2 !! name c = None
  ∧ heap (__exit__ self exc w).2 = heap w.
Proof.
  intros Hc. destruct (_CONTEXT w !! name c) as [l|] eqn:Hl.
  - rewrite (exit_registered w self c exc l Hc Hl). cbn.
    split; [apply lookup_delete_eq|reflexivity].
  - rewrite (exit_unregistered w self c exc Hc Hl). by cbn.
Qed.

(** C7: entering registers the context under its name; whatever the body
    does to the registry and whether it returns or raises, [__exit__] runs
    and the name is not registered afterwards; when the body has left the
    entry in place, [__exit__] deletes exactly that entry and the outcome of
    the body is the outcome of the statement. *)
Theorem with_statement_deregisters {A} (body : loc → W A) w self c :
  heap w !! self = Some c →
  (∀ w1, name <$> heap w1 !! self = Some (name c) →
         name <$> heap (body self w1).2 !! self = Some (name c)) →
  (∃ w1, __enter__ self w = (Ok self, w1)
         ∧ _CONTEXT w1 !! name c = Some self
         ∧ _CONTEXT w1 = <[name c := self]> (_CONTEXT w))
  ∧ _CONTEXT (with_statement self body w).2 !! name c = None
  ∧ (∀ w1 r w2, __enter__ self w = (Ok self, w1) → body self w1 = (r, w2) →
       is_Some (_CONTEXT w2 !! name c) →
       with_statement self body w
       = (r, mk_world (heap w2) (delete (name c) (_CONTEXT w2)))).
Proof.
  intros Hc Hbody. pose proof (enter_spec w self c Hc) as Henter.
  split; [|split].
  - eexists. split; [exact Henter|]. cbn. split; [apply lookup_insert_eq|done].
  - unfold with_statement. rewrite Henter.
    set (w1 := mk_world (heap w) (<[name c := self]> (_CONTEXT w))).
    assert (name <$> heap w1 !! self = Some (name c)) as H1 by (cbn; by rewrite Hc).
    specialize (Hbody w1 H1).
    destruct (body self w1) as [r w2] eqn:Hb. cbn in Hbody.
    destruct (heap w2 !! self) as [c2|] eqn:Hc2; [|discriminate].
    injection Hbody as Hname.
    destruct r as [a|e].
    + pose proof (exit_deregisters w2 self c2 None Hc2) as [Hd _].
      rewrite Hname in Hd.
      destruct (__exit__ self None w2) as [[[]|e'] w3]; exact Hd.
    + pose proof (exit_deregisters w2 self c2 (Some e) Hc2) as [Hd _].
      rewrite Hname in Hd.
      destruct (__exit__ self (Some e) w2) as [[[]|e'] w3]; exact Hd.
  - intros w1 r w2 Hent Hb [l Hl].
    rewrite Henter in Hent. injection Hent as <-.
    set (w1 := mk_world (heap w) (<[name c := self]> (_CONTEXT w))) in *.
    assert (name <$> heap w1 !! self = Some (name c)) as H1 by (cbn; by rewrite Hc).
    specialize (Hbody w1 H1). rewrite Hb in Hbody. cbn in Hbody.
    destruct (heap w2 !! self) as [c2|] eqn:Hc2; [|discriminate].
    injection Hbody as Hname.
    unfold with_statement. rewrite Henter. fold w1. rewrite Hb.
    rewrite <- Hname in Hl |- *.
    destruct r as [a|e];
      by rewrite (exit_registered w2 self c2 _ l Hc2 Hl).
Qed.

(** ** Device and precision after construction *)

Lemma set_precision_spec w self val c :
  heap w !! self = Some c →
  set_precision self val w =
    match precision_check val with
    | Ok p => (Ok tt,
               mk_world (<[self := mk_context (directory c) (name c) (device_id c) p
                                    (input_nodes c) (clean_up c) (model_dir c)
                                    (model_path c) (device c)]> (heap w))
                        (_CONTEXT w))
    | Raise e => (Raise e, w)
    end.
Proof.
  intros Hc. unfold set_precision, wbind, deref, precision_setter, wraise.
  rewrite Hc. by destruct (precision_check val).
Qed.

Lemma invoke_keeps_heap w self m : heap (invoke self m w).2 = heap w.
Proof.
  destruct m; unfold invoke;
    unfold wbind, __enter__, __exit__, train, test, write, raise_NotImplemented,
      wraise, wbind, deref, registry_setitem, registry_delitem, wret;
    destruct (heap w !! self) as [c|]; cbn; try reflexivity.
  - destruct (_CONTEXT w !! name c); reflexivity.
  - destruct ((eval c op input_map gradient_map).1); reflexivity.
Qed.

(** C5 as amended: no method of a context (enter, exit, train, test, write,
    eval) and no call of [get_context] changes any attribute of an existing
    context, so device and precision stay as constructed.  The public
    attributes can be assigned to.  The setter of the precision property
    raises ValueError and changes nothing for a value other than 'float'
    and 'double'; for one of these it stores the value as the precision of
    its context and changes nothing else.  An assignment to the plain
    attribute device, or device_id, stores the value given, unchecked, and
    changes nothing else. *)
Theorem methods_keep_device_and_precision w self :
  (∀ m, heap (invoke self m w).2 = heap w)
  ∧ (∀ h l c, heap w !! l = Some c → heap (get_context h w).2 !! l = Some c)
  ∧ (∀ val c, heap w !! self = Some c →
       (val = "float" ∨ val = "double" →
          set_precision self val w
          = (Ok tt,
             mk_world (<[self := mk_context (directory c) (name c) (device_id c)
                                   val (input_nodes c) (clean_up c)
                                   (model_dir c) (model_path c) (device c)]>
                         (heap w))
                      (_CONTEXT w)))
       ∧ (val ≠ "float" → val ≠ "double" →
          ∃ msg, set_precision self val w = (Raise (ValueError msg), w)))
  ∧ (∀ d c, heap w !! self = Some c →
       set_device self d w
       = (Ok tt,
          mk_world (<[self := mk_context (directory c) (name c) (device_id c)
                                (precision c) (input_nodes c) (clean_up c)
                                (model_dir c) (model_path c) d]>
                      (heap w))
                   (_CONTEXT w)))
  ∧ (∀ i c, heap w !! self = Some c →
       set_device_id self i w
       = (Ok tt,
          mk_world (<[self := mk_context (directory c) (name c) i
                                (precision c) (input_nodes c) (clean_up c)
                                (model_dir c) (model_path c) (device c)]>
                      (heap w))
                   (_CONTEXT w))).
Proof.
  split; [|split; [|split; [|split]]].
  - intros m. apply invoke_keeps_heap.
  - intros h l c Hc. by apply get_context_keeps_heap.
  - intros val c Hc. rewrite (set_precision_spec w self val c Hc). split.
    + intros Hval. by rewrite (precision_check_valid val Hval).
    + intros Hf Hd. rewrite (precision_check_invalid val Hf Hd). eauto.
  - intros d c Hc. unfold set_device, wbind, deref. by rewrite Hc.
  - intros i c Hc. unfold set_device_id, wbind, deref. by rewrite Hc.
Qed.

(** ** eval: arrays and loops *)

Lemma size_of_shape_app (s1 s2 : list nat) :
  Np.size_of_shape (s1 ++ s2) = Np.size_of_shape s1 * Np.size_of_shape s2.
Proof.
  unfold Np.size_of_shape. induction s1 as [|d s1 IH]; cbn; [lia|].
  rewrite IH. lia.
Qed.

Lemma size_of_shape_reversed (s : list nat) :
  Np.size_of_shape (Np.reversed s) = Np.size_of_shape s.
Proof.
  unfold Np.reversed. induction s as [|d s IH]; [reflexivity|].
  rewrite reverse_cons, size_of_shape_app, IH.
  unfold Np.size_of_shape. cbn. lia.
Qed.

(** Reshaping to the reversed shape cannot fail. *)
Lemma reshape_reversed {S : Type} (a : Np.ndarray S) :
  Np.reshape a (Np.reversed (Np.shape a)) = Ok (Np.reversed_view a).
Proof.
  unfold Np.reshape. rewrite decide_True by apply size_of_shape_reversed.
  reflexivity.
Qed.

Lemma to_host_spec (val : ValuePtr) :
  to_host val = Ok (Np.reversed_view (ToNumPy (Data val))).
Proof. unfold to_host. apply reshape_reversed. Qed.

Lemma collect_forward_Ok vs (m : gmap Var ValuePtr) : ∀ acc r,
  collect_forward vs m acc = Ok r →
  ∀ v, r !! v = if decide (v ∈ vs)
                then (λ val, Np.reversed_view (ToNumPy (Data val))) <$> m !! v
                else acc !! v.
Proof.
  induction vs as [|v0 vs IH]; intros acc r Hr v.
  - injection Hr as <-. rewrite decide_False by apply not_elem_of_nil. done.
  - cbn in Hr. destruct (m !! v0) as [val|] eqn:Hv0; [|discriminate].
    rewrite to_host_spec in Hr. rewrite (IH _ _ Hr v).
    destruct (decide (v ∈ vs)) as [Hin|Hnin].
    + rewrite decide_True by (apply elem_of_cons; auto). done.
    + destruct (decide (v = v0)) as [->|Hne].
      * rewrite decide_True by (apply elem_of_cons; auto).
        by rewrite lookup_insert_eq, Hv0.
      * rewrite decide_False by (rewrite elem_of_cons; tauto).
        by rewrite lookup_insert_ne.
Qed.

Lemma collect_forward_total vs (m : gmap Var ValuePtr) : ∀ acc,
  Forall (λ v, is_Some (m !! v)) vs → ∃ r, collect_forward vs m acc = Ok r.
Proof.
  induction vs as [|v0 vs IH]; intros acc Hall; [by eexists|].
  apply Forall_cons in Hall as [[val Hv0] Hall]. cbn.
  rewrite Hv0, to_host_spec. by apply IH.
Qed.

(** The only way the collection of the outputs fails is a missing key. *)
Lemma collect_forward_Raise vs (m : gmap Var ValuePtr) : ∀ acc e,
  collect_forward vs m acc = Raise e →
  e = KeyError ∧ ∃ v, v ∈ vs ∧ m !! v = None.
Proof.
  induction vs as [|v0 vs IH]; intros acc e Hr; [discriminate|].
  cbn in Hr. destruct (m !! v0) as [val|] eqn:Hv0.
  - rewrite to_host_spec in Hr. destruct (IH _ _ Hr) as (-> & v & Hv & Hm).
    split; [done|]. exists v. split; [apply elem_of_cons; auto|done].
  - injection Hr as <-. split; [done|]. exists v0.
    split; [apply elem_of_cons; auto|done].
Qed.

Lemma collect_backward_spec (items : list (Var * ValuePtr)) : ∀ acc,
  NoDup items.*1 →
  ∃ r, collect_backward items acc = Ok r
       ∧ ∀ v, r !! v =
              match (list_to_map items : gmap Var ValuePtr) !! v with
              | Some val => Some (Np.reversed_view (ToNumPy (Data val)))
              | None => acc !! v
              end.
Proof.
  induction items as [|[k val] items IH]; intros acc Hnd.
  - exists acc. split; [done|]. intros v. cbn. by rewrite lookup_empty.
  - cbn in Hnd. apply NoDup_cons in Hnd as [Hk Hnd].
    cbn. rewrite to_host_spec.
    destruct (IH (<[k := Np.reversed_view (ToNumPy (Data val))]> acc) Hnd)
      as (r & Hr & Hlook).
    exists r. split; [done|]. intros v. rewrite Hlook.
    destruct (decide (v = k)) as [->|Hne].
    + rewrite (not_elem_of_list_to_map_1 _ _ Hk).
      by rewrite !lookup_insert_eq.
    + by rewrite !lookup_insert_ne.
Qed.

(** The gradients are collected for exactly the keys of the dictionary. *)
Lemma collect_backward_map (m : gmap Var ValuePtr) :
  collect_backward (map_to_list m) ∅
  = Ok ((λ val, Np.reversed_view (ToNumPy (Data val))) <$> m).
Proof.
  destruct (collect_backward_spec (map_to_list m) ∅ (NoDup_fst_map_to_list m))
    as (r & -> & Hlook).
  f_equal. apply map_eq. intros v.
  rewrite Hlook, list_to_map_to_list, lookup_fmap, lookup_empty.
  by destruct (m !! v).
Qed.

Lemma forward_outputs_init_spec vs : ∀ acc : gmap Var ValuePtr * gset Var,
  let r := foldl (λ acc v, (<[v := create_ValuePtr_for_Variable v]> acc.1,
                            {[v]} ∪ acc.2)) acc vs in
  (∀ v, v ∈ vs → r.1 !! v = Some (create_ValuePtr_for_Variable v))
  ∧ (∀ v, v ∉ vs → r.1 !! v = acc.1 !! v)
  ∧ r.2 = list_to_set vs ∪ acc.2.
Proof.
  induction vs as [|v0 vs IH]; intros acc; cbn.
  - split; [|split].
    + intros v Hv. by apply elem_of_nil in Hv.
    + done.
    + by rewrite (left_id_L ∅ (∪)).
  - destruct (IH (<[v0 := create_ValuePtr_for_Variable v0]> acc.1, {[v0]} ∪ acc.2))
      as (Hin & Hnin & Hret).
    cbn in *. split; [|split].
    + intros v Hv. destruct (decide (v ∈ vs)) as [Hvs|Hvs]; [by apply Hin|].
      apply elem_of_cons in Hv as [->|Hv]; [|done].
      by rewrite (Hnin _ Hvs), lookup_insert_eq.
    + intros v Hv. apply not_elem_of_cons in Hv as [Hne Hvs].
      by rewrite (Hnin _ Hvs), lookup_insert_ne.
    + rewrite Hret. apply set_eq. intros x.
      rewrite !elem_of_union. tauto.
Qed.

(** Before the call of Forward the dictionary of outputs has exactly the
    outputs of [op] as keys, and the retain set is the same set. *)
Lemma forward_outputs_init_keys (op : Function) :
  (∀ v, v ∈ Outputs op →
        (forward_outputs_init (Outputs op)).1 !! v
        = Some (create_ValuePtr_for_Variable v))
  ∧ (∀ v, v ∉ Outputs op → (forward_outputs_init (Outputs op)).1 !! v = None)
  ∧ (forward_outputs_init (Outputs op)).2 = list_to_set (Outputs op).
Proof.
  destruct (forward_outputs_init_spec (Outputs op) (∅, ∅)) as (Hin & Hnin & Hret).
  unfold forward_outputs_init. split; [exact Hin|]. split.
  - intros v Hv. rewrite (Hnin v Hv). apply lookup_empty.
  - rewrite Hret. cbn. by rewrite (right_id_L ∅ (∪)).
Qed.

(** An engine whose Forward removes no key of the dictionary it fills
    satisfies [forward_filled]. *)
Lemma forward_filled_of_keys_kept (self : LocalExecutionContext) op im :
  (∀ arguments outputs dev retain v,
      is_Some (outputs !! v) →
      is_Some ((Forward op arguments outputs dev retain).2 !! v)) →
  forward_filled self op im.
Proof.
  intros Hkeep. unfold forward_filled, forward_call. apply Forall_forall.
  intros v Hv. apply Hkeep.
  destruct (forward_outputs_init_keys op) as (Hin & _ & _).
  rewrite (Hin v Hv). eauto.
Qed.

(** ** eval: the whole function *)

Lemma eval_unfold (self : LocalExecutionContext) op im gm :
  eval self op im gm =
    match check_keys im gm with
    | Raise e => (Raise e, [])
    | Ok _ =>
        match collect_forward (Outputs op) (forward_call self op im).2 ∅ with
        | Raise e => (Raise e, forward_trace self op im)
        | Ok fo =>
            if truthy gm then
              match collect_backward (map_to_list (backward_call self op im gm fo)) ∅ with
              | Ok bo => (Ok (ForwardBackward fo bo),
                          (forward_trace self op im ++ backward_trace self op im gm fo)%list)
              | Raise e => (Raise e,
                          (forward_trace self op im ++ backward_trace self op im gm fo)%list)
              end
            else (Ok (ForwardOnly fo), forward_trace self op im)
        end
    end.
Proof.
  unfold eval, mbind', lift, call, mret', forward_call, backward_call,
    forward_trace, backward_trace.
  destruct (check_keys im gm) as [[]|e]; [|reflexivity]. cbn.
  destruct (collect_forward _ _ _) as [fo|e]; [|reflexivity].
  destruct (truthy gm); [|reflexivity]. cbn.
  destruct (collect_backward _ _) as [bo|e]; reflexivity.
Qed.

Lemma truthy_true (gm : option (gmap Var InputValue)) :
  truthy gm = true ↔ ∃ m, gm = Some m ∧ m ≠ ∅.
Proof.
  destruct gm as [m|]; cbn.
  - rewrite bool_decide_eq_true. split; [eauto|]. by intros (m' & [= <-] & Hm).
  - split; [discriminate|]. by intros (m & [=] & _).
Qed.

Lemma truthy_false (gm : option (gmap Var InputValue)) :
  truthy gm = false ↔ gm = None ∨ gm = Some ∅.
Proof.
  destruct gm as [m|]; cbn.
  - rewrite bool_decide_eq_false. split.
    + intros Hm. right. f_equal. by destruct (decide (m = ∅)).
    + intros [[=]|[= ->]]. auto.
  - split; auto.
Qed.

(** ** eval: the key check *)

(** C1: when both dictionaries are given and their key sets differ, eval
    raises the ValueError of the key check and has made no call at all:
    neither [sanitize_var_map] nor Forward nor Backward. *)
Theorem eval_rejects_different_keys (self : LocalExecutionContext) op
    (im gm : gmap Var InputValue) :
  dom im ≠ dom gm →
  eval self op (Some im) (Some gm)
  = (Raise (ValueError "input_map and gradient_map have dijunct keys"), []).
Proof.
  intros Hdom. rewrite eval_unfold. cbn.
  by rewrite bool_decide_eq_true_2.
Qed.

Lemma check_keys_no_input (gm : option (gmap Var InputValue)) :
  check_keys None gm = Ok tt.
Proof. reflexivity. Qed.

(** Whatever eval raises other than the error of the key check is the
    KeyError of a missing output. *)
Lemma eval_Raise (self : LocalExecutionContext) op im gm e :
  check_keys im gm = Ok tt → (eval self op im gm).1 = Raise e → e = KeyError.
Proof.
  intros Hk. rewrite eval_unfold, Hk.
  destruct (collect_forward _ _ _) as [fo|e'] eqn:Hfo.
  - destruct (truthy gm); [|discriminate].
    rewrite collect_backward_map. discriminate.
  - apply collect_forward_Raise in Hfo as [-> _]. cbn. congruence.
Qed.

(** ** eval: forward and backward *)

(** A call that passes the key check and whose Forward has filled the
    outputs returns, with or without the backward pass. *)
Lemma eval_returns (self : LocalExecutionContext) op im gm :
  check_keys im gm = Ok tt →
  forward_filled self op im →
  ∃ fo,
    collect_forward (Outputs op) (forward_call self op im).2 ∅ = Ok fo
    ∧ eval self op im gm
      = if truthy gm
        then (Ok (ForwardBackward fo
                    ((λ val, Np.reversed_view (ToNumPy (Data val)))
                       <$> backward_call self op im gm fo)),
              (forward_trace self op im ++ backward_trace self op im gm fo)%list)
        else (Ok (ForwardOnly fo), forward_trace self op im).
Proof.
  intros Hk Hfill.
  destruct (collect_forward_total (Outputs op) (forward_call self op im).2 ∅ Hfill)
    as [fo Hfo].
  exists fo. split; [exact Hfo|].
  rewrite eval_unfold, Hk, Hfo.
  destruct (truthy gm); [|reflexivity].
  by rewrite collect_backward_map.
Qed.

(** C2 as amended: for a call that passes the key check and whose Forward
    has filled the outputs, eval makes the calls of the forward pass; if the
    gradient map is a non-empty dictionary it then makes exactly one call of
    Backward and returns the pair of the forward and the backward result; if
    the gradient map is None or empty it makes no further call and returns
    the forward result alone. *)
Theorem eval_backward_iff_gradient_map (self : LocalExecutionContext) op im gm :
  check_keys im gm = Ok tt →
  forward_filled self op im →
  ∃ fo,
    collect_forward (Outputs op) (forward_call self op im).2 ∅ = Ok fo
    ∧ ((∃ m, gm = Some m ∧ m ≠ ∅) →
         ∃ bo, eval self op im gm
               = (Ok (ForwardBackward fo bo),
                  (forward_trace self op im ++ backward_trace self op im gm fo)%list)
               ∧ length (filter (λ call, is_Backward call = true) (eval self op im gm).2) = 1)
    ∧ (gm = None ∨ gm = Some ∅ →
         eval self op im gm = (Ok (ForwardOnly fo), forward_trace self op im)
         ∧ filter (λ call, is_Backward call = true) (eval self op im gm).2 = []).
Proof.
  intros Hk Hfill.
  destruct (eval_returns self op im gm Hk Hfill) as (fo & Hfo & Heval).
  exists fo. split; [exact Hfo|]. split.
  - intros Hgm. apply truthy_true in Hgm. rewrite Heval, Hgm.
    eexists. split; reflexivity.
  - intros Hgm. apply truthy_false in Hgm. rewrite Heval, Hgm.
    split; reflexivity.
Qed.

(** A call of Backward is only ever made for a non-empty gradient map. *)
Lemma eval_backward_only_if (self : LocalExecutionContext) op im gm
    (call : EngineCall) :
  call ∈ (eval self op im gm).2 → is_Backward call = true →
  (∃ m, gm = Some m ∧ m ≠ ∅)
  ∧ ∃ fo bo, eval self op im gm
             = (Ok (ForwardBackward fo bo),
                (forward_trace self op im ++ backward_trace self op im gm fo)%list).
Proof.
  rewrite eval_unfold.
  destruct (check_keys im gm) as [[]|e]; cbn; [|by intros ?%elem_of_nil].
  assert (∀ call' : EngineCall,
    call' ∈ forward_trace self op im → is_Backward call' = true → False) as Hfw.
  { intros c'. unfold forward_trace. rewrite !elem_of_cons, elem_of_nil.
    intros [->|[->|[]]]; discriminate. }
  destruct (collect_forward _ _ _) as [fo|e]; cbn; [|intros; exfalso; eauto].
  destruct (truthy gm) eqn:Hgm; cbn; [|intros; exfalso; eauto].
  rewrite collect_backward_map. cbn. intros _ _.
  split; [by apply truthy_true|]. eauto.
Qed.

(** C3: whenever eval calls Backward, the call returns the pair, and the
    root gradients it passes have the forward outputs as keys; the seed of
    each is the engine value made from an array of the shape of that
    (reshaped) forward output, filled with ones, of the dtype of the
    precision of the context: float32 for 'float', float64 for 'double'. *)
Theorem seed_gradients_are_ones (self : LocalExecutionContext) op im gm
    op' state (root_gradients backward_var_map : gmap Var ValuePtr) :
  Call_Backward op' state root_gradients backward_var_map ∈ (eval self op im gm).2 →
  ∃ fo bo,
    (eval self op im gm).1 = Ok (ForwardBackward fo bo)
    ∧ dom root_gradients = dom fo
    ∧ (∀ v o, fo !! v = Some o →
         ∃ seed, root_gradients !! v
                 = Some (create_ValuePtr_from_NumPy seed (device self))
           ∧ Np.shape seed = Np.shape o
           ∧ Np.data seed = replicate (Np.size_of_shape (Np.shape o)) one
           ∧ Np.dtype_of seed = precision_numpy self)
    ∧ (precision self = "float" → precision_numpy self = Np.float32)
    ∧ (precision self = "double" → precision_numpy self = Np.float64).
Proof.
  intros Hin.
  destruct (eval_backward_only_if self op im gm _ Hin eq_refl)
    as (_ & fo & bo & Heval).
  rewrite Heval in Hin |- *. cbn in Hin.
  unfold forward_trace, backward_trace in Hin.
  rewrite !elem_of_cons, elem_of_nil in Hin.
  destruct Hin as [[=]|[[=]|[[=]|[Hin|[]]]]].
  injection Hin as -> -> -> ->.
  exists fo, bo. split; [reflexivity|]. split; [|split; [|split]].
  - unfold root_gradients_of. apply dom_fmap_L.
  - intros v o Hv. eexists. unfold root_gradients_of.
    rewrite lookup_fmap, Hv. cbn. unfold seed_gradient.
    split; [reflexivity|]. by cbn.
  - intros Hp. unfold precision_numpy. by rewrite bool_decide_eq_true_2.
  - intros Hp. unfold precision_numpy. rewrite Hp. reflexivity.
Qed.

(** C6: every array eval returns is the array of the engine under the
    reversed shape, with the same buffer and dtype: the forward outputs are
    those of the dictionary Forward filled, for exactly the outputs of
    [op]; the gradients are those of the dictionary Backward filled, for
    exactly its keys. *)
Theorem eval_outputs_reversed_once (self : LocalExecutionContext) op im gm res :
  (eval self op im gm).1 = Ok res →
  (∀ v, v ∈ dom (forward_part res) ↔ v ∈ Outputs op)
  ∧ (∀ v a, forward_part res !! v = Some a →
       ∃ val, (forward_call self op im).2 !! v = Some val
         ∧ a = Np.reversed_view (ToNumPy (Data val))
         ∧ Np.shape a = reverse (Np.shape (ToNumPy (Data val)))
         ∧ Np.data a = Np.data (ToNumPy (Data val))
         ∧ Np.dtype_of a = Np.dtype_of (ToNumPy (Data val)))
  ∧ (∀ fo bo, res = ForwardBackward fo bo →
       dom bo = dom (backward_call self op im gm fo)
       ∧ ∀ v a, bo !! v = Some a →
           ∃ val, backward_call self op im gm fo !! v = Some val
             ∧ a = Np.reversed_view (ToNumPy (Data val))
             ∧ Np.shape a = reverse (Np.shape (ToNumPy (Data val)))
             ∧ Np.data a = Np.data (ToNumPy (Data val))
             ∧ Np.dtype_of a = Np.dtype_of (ToNumPy (Data val))).
Proof.
  rewrite eval_unfold.
  destruct (check_keys im gm) as [[]|e]; [|discriminate].
  destruct (collect_forward _ _ _) as [fo|e] eqn:Hfo; [|discriminate].
  pose proof (collect_forward_Ok _ _ _ _ Hfo) as Hlook.
  assert (∀ v a, fo !! v = Some a →
       v ∈ Outputs op ∧
       ∃ val, (forward_call self op im).2 !! v = Some val
         ∧ a = Np.reversed_view (ToNumPy (Data val))) as Hfw.
  { intros v a. rewrite Hlook. case_decide as Hv; [|by rewrite lookup_empty].
    destruct (_ !! v) as [val|]; [|discriminate].
    intros [= <-]. eauto. }
  assert (∀ v, v ∈ Outputs op → is_Some (fo !! v)) as Hdom.
  { intros v Hv. rewrite Hlook, decide_True by done.
    destruct (_ !! v) as [val|] eqn:Hval; [by eexists|].
    exfalso. clear Hlook Hfw. revert Hfo Hv Hval.
    generalize (∅ : gmap Var (Np.ndarray Scalar)).
    generalize ((forward_call self op im).2). intros m.
    induction (Outputs op) as [|v0 vs IH]; intros acc Hfo Hv Hval.
    - by apply elem_of_nil in Hv.
    - cbn in Hfo. destruct (m !! v0) as [val0|] eqn:H0; [|discriminate].
      rewrite to_host_spec in Hfo.
      apply elem_of_cons in Hv as [->|Hv]; [congruence|eauto]. }
  assert (∀ res, forward_part res = fo →
    (∀ v, v ∈ dom (forward_part res) ↔ v ∈ Outputs op)
    ∧ (∀ v a, forward_part res !! v = Some a →
       ∃ val, (forward_call self op im).2 !! v = Some val
         ∧ a = Np.reversed_view (ToNumPy (Data val))
         ∧ Np.shape a = reverse (Np.shape (ToNumPy (Data val)))
         ∧ Np.data a = Np.data (ToNumPy (Data val))
         ∧ Np.dtype_of a = Np.dtype_of (ToNumPy (Data val)))) as Hpart.
  { intros res' ->. split.
    - intros v. rewrite elem_of_dom. split; [|by apply Hdom].
      intros [a Ha]. by apply (Hfw v a).
    - intros v a Ha. destruct (Hfw v a Ha) as (_ & val & Hval & ->).
      exists val. by repeat split. }
  destruct (truthy gm).
  - rewrite collect_backward_map. cbn. intros [= <-].
    destruct (Hpart (ForwardBackward fo
      ((λ val, Np.reversed_view (ToNumPy (Data val)))
         <$> backward_call self op im gm fo)) eq_refl) as [H1 H2].
    split; [exact H1|]. split; [exact H2|].
    intros fo' bo' [= <- <-]. split; [apply dom_fmap_L|].
    intros v a. rewrite lookup_fmap.
    destruct (_ !! v) as [val|]; [|discriminate].
    intros [= <-]. exists val. by repeat split.
  - cbn. intros [= <-].
    destruct (Hpart (ForwardOnly fo) eq_refl) as [H1 H2].
    split; [exact H1|]. split; [exact H2|]. intros fo' bo' [=].
Qed.

(** C8: without an input map no key check stands in the way: eval never
    raises the error of the key check, whatever the keys of the non-empty
    gradient map, and, Forward having filled the outputs, it calls Backward
    with the sanitized gradient map and returns the pair. *)
Theorem eval_without_input_map_skips_key_check (self : LocalExecutionContext) op
    (gm : gmap Var InputValue) :
  gm ≠ ∅ →
  check_keys None (Some gm) = Ok tt
  ∧ (∀ msg, (eval self op None (Some gm)).1 ≠ Raise (ValueError msg))
  ∧ (forward_filled self op None →
       ∃ fo bo, eval self op None (Some gm)
                = (Ok (ForwardBackward fo bo),
                   (forward_trace self op None
                    ++ [Call_sanitize_var_map (Some gm) self;
                        Call_Backward op (forward_call self op None).1
                          (root_gradients_of self fo)
                          (sanitize_var_map (Some gm) self)])%list)).
Proof.
  intros Hgm. split; [reflexivity|]. split.
  - intros msg Hr.
    by pose proof (eval_Raise self op None (Some gm) _ eq_refl Hr).
  - intros Hfill.
    destruct (eval_returns self op None (Some gm) eq_refl Hfill)
      as (fo & _ & Heval).
    assert (truthy (Some gm) = true) as Htr by (apply truthy_true; eauto).
    rewrite Htr in Heval. eauto.
Qed.

(** * Further properties of the module *)

(** ** get_context and get_new_context *)

Lemma init_attributes name' dev p cu c :
  LocalExecutionContext_init name' dev p cu = Ok c →
  name c = name' ∧ device_id c = dev ∧ clean_up c = cu ∧ input_nodes c = ∅
  ∧ directory c = abspath ("_cntk_" +:+ name')
  ∧ model_dir c = OsPath.join (directory c) "Models"
  ∧ model_path c = OsPath.join (model_dir c) name'
  ∧ device c = (if bool_decide (dev = (-1)%Z) then DeviceDescriptor_CPUDevice
                else DeviceDescriptor_GPUDevice dev).
Proof.
  unfold LocalExecutionContext_init.
  destruct (precision_check p) as [q|e]; [|discriminate].
  intros [= <-]. cbn. by repeat split.
Qed.

(** [get_context] never raises.  It leaves a registered handle and the whole
    state as they are; for an unregistered handle it allocates one context,
    named as the handle and with the default arguments, and adds the one
    entry; it never touches another entry or an existing object. *)
Theorem get_context_changes_only_its_handle w handle :
  ∃ l w', get_context handle w = (Ok l, w')
    ∧ _CONTEXT w' !! default "default" handle = Some l
    ∧ (∀ k, k ≠ default "default" handle → _CONTEXT w' !! k = _CONTEXT w !! k)
    ∧ (∀ l0 c, heap w !! l0 = Some c → heap w' !! l0 = Some c)
    ∧ (∀ l0, _CONTEXT w !! default "default" handle = Some l0 → l = l0 ∧ w' = w)
    ∧ (_CONTEXT w !! default "default" handle = None →
         heap w !! l = None
         ∧ ∃ c, heap w' = <[l := c]> (heap w)
                ∧ name c = default "default" handle
                ∧ precision c = "float" ∧ device_id c = (-1)%Z
                ∧ device c = DeviceDescriptor_CPUDevice ∧ clean_up c = true).
Proof.
  assert (get_context handle w = get_context (Some (default "default" handle)) w)
    as -> by (by destruct handle).
  generalize (default "default" handle). intros h.
  destruct (_CONTEXT w !! h) as [l|] eqn:Hh.
  - exists l, w. rewrite (get_context_registered w h l Hh).
    split; [done|]. split; [done|]. split; [done|]. split; [done|].
    split; [by intros l0 [= <-]|]. intros [=].
  - destruct (get_context_unregistered w h Hh) as (c & Hinit & ->).
    eexists _, _. split; [reflexivity|]. cbn.
    split; [apply lookup_insert_eq|].
    split; [by intros k Hk; rewrite lookup_insert_ne|].
    split.
    { intros l0 c0 Hc0. rewrite lookup_insert_ne; [done|].
      intros <-. by rewrite fresh_not_allocated in Hc0. }
    split; [intros l0 [=]|]. intros _.
    split; [apply fresh_not_allocated|].
    exists c. split; [done|].
    destruct (init_attributes _ _ _ _ _ Hinit) as (Hn & Hd & Hcu & _ & _ & _ & _ & Hdev).
    destruct (init_precision _ _ _ _ _ Hinit) as [Hp _].
    by rewrite Hn, Hd, Hcu, Hdev, Hp.
Qed.

Lemma get_new_context_Some draws w x :
  get_new_context draws w = Some x →
  ∃ h, h ∈ draws ∧ _CONTEXT w !! h = None ∧ x = get_context (Some h) w.
Proof.
  induction draws as [|h draws IH]; [discriminate|]. cbn [get_new_context].
  case_bool_decide as Hreg.
  - intros Hx. destruct (IH Hx) as (h' & Hin & Hh' & ->).
    exists h'. split; [apply elem_of_cons; auto|done].
  - intros [= <-]. exists h. split; [apply elem_of_cons; auto|].
    split; [|reflexivity]. destruct (_CONTEXT w !! h) eqn:E; [|done].
    exfalso. apply Hreg. eauto.
Qed.

(** When one of the handles drawn is not registered, [get_new_context]
    returns: it skips the registered handles drawn before, allocates a
    context that did not exist, names it as the first unregistered handle
    drawn and registers it there; nothing else changes. *)
Theorem get_new_context_registers_fresh_handle draws w :
  Exists (λ h, _CONTEXT w !! h = None) draws →
  ∃ pre h post l c,
    draws = (pre ++ h :: post)%list
    ∧ Forall (λ k, is_Some (_CONTEXT w !! k)) pre
    ∧ _CONTEXT w !! h = None
    ∧ heap w !! l = None
    ∧ name c = h
    ∧ get_new_context draws w
      = Some (Ok l, mk_world (<[l := c]> (heap w)) (<[h := l]> (_CONTEXT w))).
Proof.
  induction draws as [|h draws IH]; intros Hex; [by apply Exists_nil in Hex|].
  destruct (_CONTEXT w !! h) as [l0|] eqn:Hh.
  - apply Exists_cons in Hex as [Hex|Hex]; [congruence|].
    destruct (IH Hex) as (pre & h' & post & l & c & -> & Hpre & Hh' & Hl & Hn & Hg).
    exists (h :: pre), h', post, l, c. split; [done|].
    split; [apply Forall_cons; eauto|]. repeat (split; [done|]).
    cbn [get_new_context].
    rewrite bool_decide_eq_true_2 by (rewrite Hh; eauto). exact Hg.
  - destruct (get_context_unregistered w h Hh) as (c & Hinit & Hg).
    exists [], h, draws, (fresh (dom (heap w))), c. split; [done|].
    split; [constructor|]. split; [done|]. split; [apply fresh_not_allocated|].
    split; [by destruct (init_attributes _ _ _ _ _ Hinit)|].
    cbn [get_new_context].
    rewrite bool_decide_eq_false_2 by (rewrite Hh; by intros [? ?]).
    by rewrite Hg.
Qed.

(** ** What every reachable state satisfies *)

Lemma new_preserves name' dev p cu w :
  registry_consistent w → precisions_valid w →
  registry_consistent (LocalExecutionContext_new name' dev p cu w).2
  ∧ precisions_valid (LocalExecutionContext_new name' dev p cu w).2.
Proof.
  intros Hreg Hprec. unfold LocalExecutionContext_new.
  destruct (LocalExecutionContext_init name' dev p cu) as [c|e] eqn:Hinit; [|done].
  unfold new_object. cbn. split.
  - intros k l Hk. destruct (Hreg k l Hk) as (c0 & Hc0 & Hn).
    exists c0. split; [|done]. cbn. rewrite lookup_insert_ne; [done|].
    intros <-. by rewrite fresh_not_allocated in Hc0.
  - intros l c0. cbn. rewrite lookup_insert. case_decide as Hl.
    + intros [= <-]. destruct (init_precision _ _ _ _ _ Hinit) as [-> ?]. done.
    + apply Hprec.
Qed.

Lemma get_context_preserves h w :
  registry_consistent w → precisions_valid w →
  registry_consistent (get_context (Some h) w).2
  ∧ precisions_valid (get_context (Some h) w).2.
Proof.
  intros Hreg Hprec. destruct (_CONTEXT w !! h) as [l|] eqn:Hh.
  - by rewrite (get_context_registered w h l Hh).
  - destruct (get_context_unregistered w h Hh) as (c & Hinit & ->). cbn. split.
    + intros k l. cbn. rewrite lookup_insert. case_decide as Hk.
      * intros [= <-]. exists c. rewrite lookup_insert_eq. split; [done|].
        subst k. by destruct (init_attributes _ _ _ _ _ Hinit).
      * intros Hl. destruct (Hreg k l Hl) as (c0 & Hc0 & Hn).
        exists c0. split; [|done]. rewrite lookup_insert_ne; [done|].
        intros <-. by rewrite fresh_not_allocated in Hc0.
    + intros l c0. cbn. rewrite lookup_insert. case_decide as Hl.
      * intros [= <-]. destruct (init_precision _ _ _ _ _ Hinit) as [-> ?]. auto.
      * apply Hprec.
Qed.

Lemma invoke_registry w self m :
  _CONTEXT (invoke self m w).2 = _CONTEXT w
  ∨ (∃ c, heap w !! self = Some c
          ∧ (_CONTEXT (invoke self m w).2 = <[name c := self]> (_CONTEXT w)
             ∨ _CONTEXT (invoke self m w).2 = delete (name c) (_CONTEXT w))).
Proof.
  destruct m; unfold invoke;
    unfold wbind, __enter__, __exit__, train, test, write, raise_NotImplemented,
      wraise, wbind, deref, registry_setitem, registry_delitem, wret;
    destruct (heap w !! self) as [c|] eqn:Hc; cbn; auto.
  - right. exists c. auto.
  - destruct (_CONTEXT w !! name c); cbn; [|auto].
    right. exists c. auto.
  - destruct ((eval c op input_map gradient_map).1); auto.
Qed.

Lemma invoke_preserves self m w :
  registry_consistent w → precisions_valid w →
  registry_consistent (invoke self m w).2 ∧ precisions_valid (invoke self m w).2.
Proof.
  intros Hreg Hprec. split.
  - intros k l. rewrite invoke_keeps_heap.
    destruct (invoke_registry w self m) as [->|(c & Hc & [-> | ->])].
    + apply Hreg.
    + rewrite lookup_insert. case_decide as Hk; [|apply Hreg].
      intros [= <-]. exists c. by subst k.
    + rewrite lookup_delete. case_decide; [done|apply Hreg].
  - intros l c. rewrite invoke_keeps_heap. apply Hprec.
Qed.

Lemma set_precision_preserves self val w :
  registry_consistent w → precisions_valid w →
  registry_consistent (set_precision self val w).2
  ∧ precisions_valid (set_precision self val w).2.
Proof.
  intros Hreg Hprec.
  destruct (heap w !! self) as [cs|] eqn:Hs.
  - rewrite (set_precision_spec w self val cs Hs).
    destruct (precision_check val) as [p|e] eqn:Hp; [|done]. cbn.
    apply precision_check_inv in Hp as [-> Hval]. split.
    + intros k l Hk. destruct (Hreg k l Hk) as (c0 & Hc0 & Hn).
      cbn. rewrite lookup_insert. case_decide as Hl.
      * subst l. eexists. split; [reflexivity|]. cbn. congruence.
      * eauto.
    + intros l c. cbn. rewrite lookup_insert. case_decide as Hl.
      * by intros [= <-].
      * apply Hprec.
  - unfold set_precision, wbind, deref. by rewrite Hs.
Qed.

Lemma step_preserves w w' :
  step w w' →
  registry_consistent w ∧ precisions_valid w →
  registry_consistent w' ∧ precisions_valid w'.
Proof.
  intros Hstep [Hreg Hprec]. destruct Hstep as
    [n d p cu w r w' H | h w r w' H | draws w r w' H | self m w r w' H
    | self val w r w' H].
  - pose proof (new_preserves n d p cu w Hreg Hprec) as Hn. by rewrite H in Hn.
  - assert (get_context h w = get_context (Some (default "default" h)) w) as E
      by (by destruct h).
    pose proof (get_context_preserves (default "default" h) w Hreg Hprec) as Hn.
    by rewrite <- E, H in Hn.
  - apply get_new_context_Some in H as (h & _ & _ & H).
    pose proof (get_context_preserves h w Hreg Hprec) as Hn. by rewrite <- H in Hn.
  - pose proof (invoke_preserves self m w Hreg Hprec) as Hn. by rewrite H in Hn.
  - pose proof (set_precision_preserves self val w Hreg Hprec) as Hn.
    by rewrite H in Hn.
Qed.

Lemma reachable_invariant w :
  reachable w → registry_consistent w ∧ precisions_valid w.
Proof.
  intros Hr.
  apply (rtc_ind_r (R:=step)
           (λ w, registry_consistent w ∧ precisions_valid w) initial_world);
    [|intros w1 w2 _ Hstep IH|exact Hr].
  - split; intros ? ?; cbn; by rewrite lookup_empty.
  - by apply (step_preserves w1 w2).
Qed.

(** In every state the module can reach, a registered handle refers to an
    existing context whose name is the handle, so two different handles
    never share a context. *)
Theorem reachable_registry_names_its_contexts w :
  reachable w →
  (∀ k l, _CONTEXT w !! k = Some l → ∃ c, heap w !! l = Some c ∧ name c = k)
  ∧ (∀ k1 k2 l1 l2, _CONTEXT w !! k1 = Some l1 → _CONTEXT w !! k2 = Some l2 →
       k1 ≠ k2 → l1 ≠ l2).
Proof.
  intros Hr. destruct (reachable_invariant w Hr) as [Hreg _].
  split; [exact Hreg|].
  intros k1 k2 l1 l2 H1 H2 Hne <-.
  destruct (Hreg k1 l1 H1) as (c1 & Hc1 & Hn1).
  destruct (Hreg k2 l1 H2) as (c2 & Hc2 & Hn2). congruence.
Qed.

(** In every state the module can reach, the precision of every context is
    'float' or 'double', and [precision_numpy] is float32 for the first and
    float64 for the second. *)
Theorem reachable_precision_is_valid w l c :
  reachable w → heap w !! l = Some c →
  (precision c = "float" ∧ precision_numpy c = Np.float32)
  ∨ (precision c = "double" ∧ precision_numpy c = Np.float64).
Proof.
  intros Hr Hc. destruct (reachable_invariant w Hr) as [_ Hprec].
  unfold precision_numpy.
  destruct (Hprec l c Hc) as [Hp|Hp]; rewrite Hp; [left|right]; done.
Qed.

(** ** The registry shares objects *)

Lemma get_context_returns_registered w h :
  ∃ l w', get_context (Some h) w = (Ok l, w') ∧ _CONTEXT w' !! h = Some l.
Proof.
  destruct (_CONTEXT w !! h) as [l|] eqn:Hh.
  - exists l, w. by rewrite (get_context_registered w h l Hh).
  - destruct (get_context_unregistered w h Hh) as (c & _ & ->).
    eexists _, _. split; [reflexivity|]. cbn. apply lookup_insert_eq.
Qed.

(** A context obtained from [get_context] is the registered object itself:
    a valid precision assigned to it is what a later [get_context] with the
    same handle finds, on the same object, while the contexts of all other
    handles are different objects and keep their attributes. *)
Theorem precision_assignment_is_seen_through_registry w h val :
  registry_consistent w →
  val = "float" ∨ val = "double" →
  ∃ l w1 w2,
    get_context (Some h) w = (Ok l, w1)
    ∧ set_precision l val w1 = (Ok tt, w2)
    ∧ get_context (Some h) w2 = (Ok l, w2)
    ∧ precision <$> heap w2 !! l = Some val
    ∧ (∀ k l', k ≠ h → _CONTEXT w2 !! k = Some l' →
         l' ≠ l ∧ heap w2 !! l' = heap w1 !! l').
Proof.
  intros Hreg Hval.
  assert (registry_consistent (get_context (Some h) w).2) as Hreg1.
  { destruct (_CONTEXT w !! h) as [l|] eqn:Hh.
    - by rewrite (get_context_registered w h l Hh).
    - destruct (get_context_unregistered w h Hh) as (c & Hinit & ->). cbn.
      intros k l. cbn. rewrite lookup_insert. case_decide as Hk.
      + intros [= <-]. exists c. rewrite lookup_insert_eq. split; [done|].
        subst k. by destruct (init_attributes _ _ _ _ _ Hinit).
      + intros Hl. destruct (Hreg k l Hl) as (c0 & Hc0 & Hn).
        exists c0. split; [|done]. rewrite lookup_insert_ne; [done|].
        intros <-. by rewrite fresh_not_allocated in Hc0. }
  destruct (get_context_returns_registered w h) as (l & w1 & Hg & Hl).
  rewrite Hg in Hreg1. cbn in Hreg1.
  destruct (Hreg1 h l Hl) as (c & Hc & Hn).
  exists l, w1. eexists. split; [exact Hg|].
  rewrite (set_precision_spec w1 l val c Hc), (precision_check_valid val Hval).
  split; [reflexivity|].
  split; [by apply get_context_registered|].
  cbn [heap _CONTEXT].
  split; [by rewrite lookup_insert_eq|].
  intros k l' Hk Hl'. destruct (Hreg1 k l' Hl') as (c' & Hc' & Hn').
  assert (l' ≠ l) as Hne by (intros ->; congruence).
  split; [done|]. by rewrite lookup_insert_ne.
Qed.

(** ** Entering and leaving *)

Lemma with_statement_run {A} (body : loc → W A) w self c r w2 c2 :
  heap w !! self = Some c →
  body self (mk_world (heap w) (<[name c := self]> (_CONTEXT w))) = (r, w2) →
  heap w2 !! self = Some c2 → name c2 = name c →
  with_statement self body w =
    match _CONTEXT w2 !! name c with
    | Some _ => (r, mk_world (heap w2) (delete (name c) (_CONTEXT w2)))
    | None => (Raise KeyError, w2)
    end.
Proof.
  intros Hc Hb Hc2 Hn. unfold with_statement.
  rewrite (enter_spec w self c Hc), Hb. rewrite <- Hn.
  destruct (_CONTEXT w2 !! name c2) as [l|] eqn:Hl.
  - destruct r; by rewrite (exit_registered w2 self c2 _ l Hc2 Hl).
  - destruct r; by rewrite (exit_unregistered w2 self c2 _ Hc2 Hl).
Qed.

(** A with statement on a context inside a with statement on the same
    context fails: the inner exit removes the entry, so the outer exit
    raises KeyError, which also replaces an exception of the body; the name
    is unregistered afterwards. *)
Theorem nested_with_raises_KeyError {A} (body : loc → W A) w self c :
  heap w !! self = Some c →
  (∀ w1, heap (body self w1).2 = heap w1
         ∧ _CONTEXT (body self w1).2 = _CONTEXT w1) →
  with_statement self (λ _, with_statement self body) w
  = (Raise KeyError, mk_world (heap w) (delete (name c) (_CONTEXT w))).
Proof.
  intros Hc Hbody.
  set (w1 := mk_world (heap w) (<[name c := self]> (_CONTEXT w))).
  assert (heap w1 !! self = Some c) as Hc1 by done.
  set (w2 := mk_world (heap w1) (<[name c := self]> (_CONTEXT w1))).
  destruct (body self w2) as [r w3] eqn:Hb.
  destruct (Hbody w2) as [Hheap Hregs]. rewrite Hb in Hheap, Hregs. cbn in Hheap, Hregs.
  assert (heap w3 !! self = Some c) as Hc3 by (by rewrite Hheap).
  assert (with_statement self body w1
          = (r, mk_world (heap w) (delete (name c) (_CONTEXT w)))) as Hinner.
  { rewrite (with_statement_run body w1 self c r w3 c Hc1 Hb Hc3 eq_refl).
    rewrite Hregs, Hheap. cbn. rewrite lookup_insert_eq.
    by rewrite !delete_insert_eq. }
  rewrite (with_statement_run (λ _, with_statement self body) w self c r
             (mk_world (heap w) (delete (name c) (_CONTEXT w))) c Hc Hinner Hc eq_refl).
  cbn. by rewrite lookup_delete_eq.
Qed.

(** Entering and leaving restores the registry exactly when the name was
    not registered before.  An entry that was there before, for whatever
    object, is gone afterwards and not restored, and the next
    [get_context] with that name makes a new object. *)
Theorem enter_exit_round_trip w self c exc :
  heap w !! self = Some c →
  (_CONTEXT w !! name c = None →
     __exit__ self exc (__enter__ self w).2 = (Ok tt, w))
  ∧ (∀ l0, _CONTEXT w !! name c = Some l0 → is_Some (heap w !! l0) →
       ∃ w' l1 w'',
         __exit__ self exc (__enter__ self w).2 = (Ok tt, w')
         ∧ _CONTEXT w' !! name c = None
         ∧ get_context (Some (name c)) w' = (Ok l1, w'')
         ∧ l1 ≠ l0 ∧ l1 ≠ self).
Proof.
  intros Hc. rewrite (enter_spec w self c Hc). cbn [snd].
  assert (__exit__ self exc (mk_world (heap w) (<[name c := self]> (_CONTEXT w)))
          = (Ok tt, mk_world (heap w) (delete (name c) (_CONTEXT w)))) as Hexit.
  { rewrite (exit_registered (mk_world (heap w) (<[name c := self]> (_CONTEXT w)))
               self c exc self Hc) by apply lookup_insert_eq.
    cbn. by rewrite delete_insert_eq. }
  rewrite Hexit. split.
  - intros Hnone. rewrite delete_id by done. by destruct w.
  - intros l0 Hl0 [c0 Hc0].
    set (w' := mk_world (heap w) (delete (name c) (_CONTEXT w))).
    assert (_CONTEXT w' !! name c = None) as Hnone by apply lookup_delete_eq.
    destruct (get_context_unregistered w' (name c) Hnone) as (c1 & _ & Hg).
    eexists w', _, _. split; [done|]. split; [done|]. split; [exact Hg|].
    cbn. split; intros E; pose proof (fresh_not_allocated w) as Hf;
      rewrite E in Hf; congruence.
Qed.

(** Inside the with statement [get_context] with the name of the context
    returns the entered context itself and allocates nothing. *)
Theorem get_context_in_with_returns_entered w self c :
  heap w !! self = Some c →
  with_statement self (λ _, get_context (Some (name c))) w
  = (Ok self, mk_world (heap w) (delete (name c) (_CONTEXT w))).
Proof.
  intros Hc.
  set (w1 := mk_world (heap w) (<[name c := self]> (_CONTEXT w))).
  assert (get_context (Some (name c)) w1 = (Ok self, w1)) as Hb
    by (apply get_context_registered, lookup_insert_eq).
  rewrite (with_statement_run (λ _, get_context (Some (name c))) w self c
             (Ok self) w1 c Hc Hb Hc eq_refl).
  cbn. rewrite lookup_insert_eq. by rewrite delete_insert_eq.
Qed.

(** Of the methods only [__enter__] and [__exit__] change the state at all,
    and they change the registry at the name of their context only. *)
Theorem methods_change_registry_only_at_own_name w self c m :
  heap w !! self = Some c →
  (∀ k, k ≠ name c → _CONTEXT (invoke self m w).2 !! k = _CONTEXT w !! k)
  ∧ (m ≠ Call_enter → (∀ exc, m ≠ Call_exit exc) → (invoke self m w).2 = w).
Proof.
  intros Hc. split.
  - intros k Hk.
    destruct (invoke_registry w self m) as [->|(c' & Hc' & [-> | ->])]; [done| |].
    + assert (c' = c) as -> by congruence. by rewrite lookup_insert_ne.
    + assert (c' = c) as -> by congruence. by rewrite lookup_delete_ne.
  - intros Hne Hnx. destruct m; [done|by destruct (Hnx exc)| | | |];
      unfold invoke, wbind, train, test, write, raise_NotImplemented, wraise,
        deref, wret; try reflexivity.
    rewrite Hc. by destruct ((eval c op input_map gradient_map).1).
Qed.

(** ** eval: errors *)

Lemma check_keys_Raise (im gm : option (gmap Var InputValue)) e :
  check_keys im gm = Raise e ↔
  (∃ im' gm', im = Some im' ∧ gm = Some gm' ∧ dom im' ≠ dom gm')
  ∧ e = ValueError "input_map and gradient_map have dijunct keys".
Proof.
  unfold check_keys. destruct im as [im'|], gm as [gm'|];
    try (split; [discriminate|by intros [(? & ? & [=] & [=] & _) _]]).
  case_bool_decide as Hdom; split.
  - intros [= <-]. split; [|done]. eauto.
  - by intros [_ ->].
  - discriminate.
  - intros [(? & ? & [= <-] & [= <-] & Hne) _]. done.
Qed.

(** eval raises ValueError exactly when both dictionaries are given and
    their key sets differ.  So an empty gradient map is rejected next to a
    non-empty input map, although it asks for no gradient, while None in
    its place is accepted. *)
Theorem eval_ValueError_iff (self : LocalExecutionContext) op im gm msg :
  ((eval self op im gm).1 = Raise (ValueError msg) ↔
     (∃ im' gm', im = Some im' ∧ gm = Some gm' ∧ dom im' ≠ dom gm')
     ∧ msg = "input_map and gradient_map have dijunct keys")
  ∧ (∀ im' : gmap Var InputValue, im' ≠ ∅ →
       eval self op (Some im') (Some ∅)
       = (Raise (ValueError "input_map and gradient_map have dijunct keys"), [])
       ∧ ∀ m, (eval self op (Some im') None).1 ≠ Raise (ValueError m)).
Proof.
  split.
  - destruct (check_keys im gm) as [[]|e] eqn:Hk.
    + split.
      * intros Hr. by pose proof (eval_Raise self op im gm _ Hk Hr).
      * intros [(im' & gm' & -> & -> & Hne) _]. cbn in Hk.
        by rewrite bool_decide_eq_true_2 in Hk.
    + rewrite eval_unfold, Hk. cbn.
      apply check_keys_Raise in Hk as [Hex ->]. split.
      * by intros [= <-].
      * by intros [_ ->].
  - intros im' Hne. split.
    + rewrite eval_unfold. cbn. rewrite bool_decide_eq_true_2; [done|].
      rewrite dom_empty_L. by rewrite dom_empty_iff_L.
    + intros m Hr. by pose proof (eval_Raise self op (Some im') None _ eq_refl Hr).
Qed.

Lemma collect_forward_missing vs (m : gmap Var ValuePtr) v : ∀ acc,
  v ∈ vs → m !! v = None → collect_forward vs m acc = Raise KeyError.
Proof.
  induction vs as [|v0 vs IH]; intros acc Hv Hm; [by apply elem_of_nil in Hv|].
  cbn. destruct (m !! v0) as [val|] eqn:Hv0; [|done].
  rewrite to_host_spec. apply IH; [|done].
  apply elem_of_cons in Hv as [->|Hv]; [congruence|done].
Qed.

(** When the key check passes but Forward has dropped an output of [op]
    from the dictionary, eval raises KeyError after the forward pass and
    makes no call of Backward, whatever the gradient map; with all outputs
    in place it returns. *)
Theorem eval_KeyError_iff_output_missing (self : LocalExecutionContext) op im gm :
  check_keys im gm = Ok tt →
  ((∃ v, v ∈ Outputs op ∧ (forward_call self op im).2 !! v = None) →
     eval self op im gm = (Raise KeyError, forward_trace self op im))
  ∧ ((eval self op im gm).1 = Raise KeyError →
     ∃ v, v ∈ Outputs op ∧ (forward_call self op im).2 !! v = None)
  ∧ (forward_filled self op im → ∃ res, (eval self op im gm).1 = Ok res).
Proof.
  intros Hk. split; [|split].
  - intros (v & Hv & Hm). rewrite eval_unfold, Hk.
    by rewrite (collect_forward_missing _ _ v ∅ Hv Hm).
  - rewrite eval_unfold, Hk.
    destruct (collect_forward _ _ _) as [fo|e] eqn:Hfo.
    + destruct (truthy gm); [|discriminate].
      rewrite collect_backward_map. discriminate.
    + intros _. by apply collect_forward_Raise in Hfo as [_ Hex].
  - intros Hfill. destruct (eval_returns self op im gm Hk Hfill) as (fo & _ & ->).
    destruct (truthy gm); eauto.
Qed.

(** ** eval: the forward pass *)

(** Asking for gradients does not change the forward result: when eval
    returns with a gradient map, it returns the same forward outputs
    without one, from the same calls; and when it returns without one, it
    returns with every gradient map that passes the key check. *)
Theorem forward_result_independent_of_gradient_map
    (self : LocalExecutionContext) op im gm :
  (∀ res, (eval self op im gm).1 = Ok res →
     eval self op im None
     = (Ok (ForwardOnly (forward_part res)), forward_trace self op im)
     ∧ ∃ rest, (eval self op im gm).2 = (forward_trace self op im ++ rest)%list)
  ∧ (∀ fo, check_keys im gm = Ok tt →
       (eval self op im None).1 = Ok (ForwardOnly fo) →
       ∃ res, (eval self op im gm).1 = Ok res ∧ forward_part res = fo).
Proof.
  assert (check_keys im None = Ok tt) as Hnone by (by destruct im).
  split.
  - intros res. rewrite !eval_unfold, Hnone.
    destruct (check_keys im gm) as [[]|e]; [|discriminate].
    destruct (collect_forward _ _ _) as [fo|e]; [|discriminate].
    change (truthy None) with false. cbv iota.
    destruct (truthy gm).
    + rewrite collect_backward_map. cbn. intros [= <-]. split; [done|]. eauto.
    + cbn. intros [= <-]. split; [done|]. by exists [].
  - intros fo Hk. rewrite !eval_unfold, Hnone, Hk.
    destruct (collect_forward _ _ _) as [fo'|e]; [|discriminate].
    change (truthy None) with false. cbv iota. cbn. intros [= <-].
    destruct (truthy gm).
    + rewrite collect_backward_map. eauto.
    + eauto.
Qed.

(** Whenever the key check passes, eval first sanitizes the input map and
    then calls Forward once, with a dictionary whose keys are exactly the
    outputs of [op], each with the value made for it, and with all outputs
    in the retain set; the only calls that can follow are those of the
    backward pass. *)
Theorem eval_calls_Forward_with_all_outputs (self : LocalExecutionContext) op im gm :
  check_keys im gm = Ok tt →
  ∃ outputs retain rest,
    (eval self op im gm).2
    = Call_sanitize_var_map im self
      :: Call_Forward op (sanitize_var_map im self) outputs (device self) retain
      :: rest
    ∧ dom outputs = list_to_set (Outputs op)
    ∧ retain = list_to_set (Outputs op)
    ∧ (∀ v, v ∈ Outputs op → outputs !! v = Some (create_ValuePtr_for_Variable v))
    ∧ (rest = [] ∨ ∃ fo, rest = backward_trace self op im gm fo).
Proof.
  intros Hk.
  destruct (forward_outputs_init_keys op) as (Hin & Hnin & Hret).
  exists (forward_outputs_init (Outputs op)).1, (forward_outputs_init (Outputs op)).2.
  assert (∃ rest, (eval self op im gm).2 = (forward_trace self op im ++ rest)%list
                  ∧ (rest = [] ∨ ∃ fo, rest = backward_trace self op im gm fo))
    as (rest & Htrace & Hrest).
  { rewrite eval_unfold, Hk.
    destruct (collect_forward _ _ _) as [fo|e].
    - destruct (truthy gm).
      + rewrite collect_backward_map. cbn. eauto.
      + exists []. cbn. auto.
    - exists []. cbn. auto. }
  exists rest. split; [by rewrite Htrace|].
  split; [|split; [done|split; [done|done]]].
  apply set_eq. intros v. rewrite elem_of_dom, elem_of_list_to_set.
  split.
  - intros [p Hp]. destruct (decide (v ∈ Outputs op)) as [|Hv]; [done|].
    rewrite (Hnin v Hv) in Hp. discriminate.
  - intros Hv. rewrite (Hin v Hv). eauto.
Qed.

(** ** The layout of arrays and of paths *)

(** Reversing the dimensions keeps the number of elements, so the reshape
    of lines 280 and 297 never fails, and doing it twice gives back the
    array of the engine. *)
Theorem reversed_reshape_round_trip {S : Type} (a : Np.ndarray S) :
  Np.reshape a (Np.reversed (Np.shape a)) = Ok (Np.reversed_view a)
  ∧ Np.size_of_shape (Np.shape (Np.reversed_view a)) = Np.size_of_shape (Np.shape a)
  ∧ Np.reshape (Np.reversed_view a) (Np.reversed (Np.shape (Np.reversed_view a)))
    = Ok a.
Proof.
  split; [apply reshape_reversed|]. split; [apply size_of_shape_reversed|].
  rewrite reshape_reversed. f_equal. destruct a as [s d b].
  unfold Np.reversed_view, Np.reversed. cbn [Np.shape Np.dtype_of Np.data].
  by rewrite (list.reverse_involutive s).
Qed.

Lemma endswith_sep_append (a b : string) :
  b ≠ "" → OsPath.endswith_sep (a +:+ b) = OsPath.endswith_sep b.
Proof.
  intros Hb. induction a as [|ch a IH]; [done|].
  change (String ch a +:+ b) with (String ch (a +:+ b)).
  destruct (a +:+ b) as [|ch' s'] eqn:E.
  - destruct a; [by cbn in E|discriminate].
  - rewrite <- IH. reflexivity.
Qed.

(** Where the models of a context go.  For a name that starts with a slash
    the model path is the name itself, outside the directory of the
    context; otherwise, the directory being a non-empty path without a
    trailing slash, it is the directory, then Models, then the name. *)
Theorem model_path_layout name' dev p cu c :
  LocalExecutionContext_init name' dev p cu = Ok c →
  directory c = abspath ("_cntk_" +:+ name')
  ∧ (OsPath.startswith_sep name' = true → model_path c = name')
  ∧ (directory c ≠ "" → OsPath.endswith_sep (directory c) = false →
       model_dir c = directory c +:+ "/Models"
       ∧ (OsPath.startswith_sep name' = false →
            model_path c = (directory c +:+ "/Models") +:+ "/" +:+ name')).
Proof.
  intros Hinit.
  destruct (init_attributes _ _ _ _ _ Hinit) as (_ & _ & _ & _ & Hdir & Hmd & Hmp & _).
  split; [done|]. split.
  - intros Hs. rewrite Hmp. unfold OsPath.join. by rewrite Hs.
  - intros Hne Hend.
    assert (model_dir c = directory c +:+ "/Models") as Hmd'.
    { rewrite Hmd. unfold OsPath.join. cbn [OsPath.startswith_sep].
      rewrite bool_decide_eq_false_2 by done. cbn [orb].
      rewrite bool_decide_eq_false_2 by done. by rewrite Hend. }
    split; [done|]. intros Hs. rewrite Hmp, Hmd'. unfold OsPath.join.
    rewrite Hs, endswith_sep_append by done.
    rewrite bool_decide_eq_false_2; [done|].
    destruct (directory c); done.
Qed.

End FacadeProperties.

(** * The theorems at work on the small engine *)

Section Runs.
Existing Instance Toy.carrier.
Existing Instance Toy.backend.

(** A decidable closed proposition is settled by evaluating its decision. *)
Ltac by_evaluation := apply (bool_decide_unpack _); vm_compute; exact I.

Lemma eval_rejects_different_keys_witness :
  eval (Toy.ctx "float") Toy.op (Some Toy.at5) (Some Toy.at6)
  = (Raise (ValueError "input_map and gradient_map have dijunct keys"), []).
Proof.
  apply (eval_rejects_different_keys (Toy.ctx "float") Toy.op Toy.at5 Toy.at6).
  by_evaluation.
Defined.

(** C2, counterexample: the gradient map is a non-empty dictionary, yet its
    keys differ from those of the input map, so eval raises: no pair is
    returned and no call of Backward is made. *)
Lemma backward_skipped_on_key_mismatch :
  Toy.at6 ≠ ∅
  ∧ eval (Toy.ctx "float") Toy.op (Some Toy.at5) (Some Toy.at6)
    = (Raise (ValueError "input_map and gradient_map have dijunct keys"), [])
  ∧ (∀ fo bo, (eval (Toy.ctx "float") Toy.op (Some Toy.at5) (Some Toy.at6)).1
              ≠ Ok (ForwardBackward fo bo))
  ∧ filter (λ call, is_Backward call = true)
           (eval (Toy.ctx "float") Toy.op (Some Toy.at5) (Some Toy.at6)).2 = [].
Proof.
  split; [|split; [|split]].
  - by_evaluation.
  - vm_compute. reflexivity.
  - intros fo bo. vm_compute. discriminate.
  - vm_compute. reflexivity.
Qed.

Lemma eval_backward_iff_gradient_map_witness :
  (∃ fo bo, (eval (Toy.ctx "float") Toy.op (Some Toy.at5) (Some Toy.at5)).1
            = Ok (ForwardBackward fo bo))
  ∧ (∃ fo, (eval (Toy.ctx "float") Toy.op (Some Toy.at5) None).1
           = Ok (ForwardOnly fo)).
Proof.
  split.
  - destruct (eval_backward_iff_gradient_map (Toy.ctx "float") Toy.op
                (Some Toy.at5) (Some Toy.at5)) as (fo & _ & Hpair & _).
    + vm_compute. reflexivity.
    + by_evaluation.
    + destruct Hpair as (bo & Heval & _).
      * exists Toy.at5. split; [reflexivity|].
        by_evaluation.
      * exists fo, bo. rewrite Heval. reflexivity.
  - destruct (eval_backward_iff_gradient_map (Toy.ctx "float") Toy.op
                (Some Toy.at5) None) as (fo & _ & _ & Honly).
    + vm_compute. reflexivity.
    + by_evaluation.
    + destruct Honly as (Heval & _); [by left|].
      exists fo. rewrite Heval. reflexivity.
Defined.

Lemma seed_gradients_are_ones_witness :
  ∃ fo bo,
    (eval (Toy.ctx "double") Toy.op None (Some Toy.at6)).1
    = Ok (ForwardBackward fo bo)
    ∧ dom (root_gradients_of (Toy.ctx "double") Toy.forward_output) = dom fo.
Proof.
  destruct (seed_gradients_are_ones (Toy.ctx "double") Toy.op None (Some Toy.at6)
              Toy.op tt
              (root_gradients_of (B:=Toy.backend) (Toy.ctx "double") Toy.forward_output)
              (sanitize_var_map (T:=Toy.carrier) (Some Toy.at6) (Toy.ctx "double")))
    as (fo & bo & Heval & Hdom & _).
  - vm_compute. do 3 apply list_elem_of_further. apply list_elem_of_here.
  - exists fo, bo. split; [exact Heval|exact Hdom].
Defined.

Lemma construction_checks_precision_witness :
  (∃ msg, LocalExecutionContext_init "c" (-1) "half" true = Raise (ValueError msg))
  ∧ (∃ c, LocalExecutionContext_init "c" (-1) "double" true = Ok c
          ∧ precision c = "double").
Proof.
  split.
  - destruct (proj1 (construction_checks_precision Toy.empty_world "c" (-1) "half" true))
      as (msg & Hinit & _).
    + by_evaluation.
    + by_evaluation.
    + exists msg. exact Hinit.
  - destruct (proj2 (construction_checks_precision Toy.empty_world "c" (-1) "double" true))
      as (c & l & w' & Hinit & Hp & _).
    + right. reflexivity.
    + exists c. split; [exact Hinit|exact Hp].
Defined.

(** C5, counterexample: a context constructed with 'float' on the CPU has
    precision 'double' after an assignment to its precision property, and
    another device after an assignment to its device attribute. *)
Lemma binding_changes_after_construction :
  precision <$> heap Toy.world_c !! 0 = Some "float"
  ∧ (set_precision 0 "double" Toy.world_c).1 = Ok tt
  ∧ precision <$> heap (set_precision 0 "double" Toy.world_c).2 !! 0 = Some "double"
  ∧ device <$> heap Toy.world_c !! 0 = Some DeviceDescriptor_CPUDevice
  ∧ (set_device 0 (DeviceDescriptor_GPUDevice 3) Toy.world_c).1 = Ok tt
  ∧ device <$> heap (set_device 0 (DeviceDescriptor_GPUDevice 3) Toy.world_c).2 !! 0
    = Some (DeviceDescriptor_GPUDevice 3)
  ∧ DeviceDescriptor_GPUDevice 3 ≠ DeviceDescriptor_CPUDevice.
Proof.
  repeat split; try (vm_compute; reflexivity).
  vm_compute. discriminate.
Qed.

Lemma methods_keep_device_and_precision_witness :
  heap (get_context (Some "d") Toy.world_c).2 !! 0 = Some (Toy.ctx "float")
  ∧ set_precision 0 "double" Toy.world_c
    = (Ok tt, mk_world (<[0 := Toy.ctx "double"]> (heap Toy.world_c))
                       (_CONTEXT Toy.world_c))
  ∧ (∃ msg, set_precision 0 "half" Toy.world_c = (Raise (ValueError msg), Toy.world_c))
  ∧ (set_device 0 (DeviceDescriptor_GPUDevice 3) Toy.world_c).1 = Ok tt.
Proof.
  destruct (methods_keep_device_and_precision Toy.world_c 0)
    as (_ & Hget & Hset & Hdev & _).
  assert (heap Toy.world_c !! 0 = Some (Toy.ctx "float")) as Hc
    by (vm_compute; reflexivity).
  split; [by apply Hget|].
  destruct (Hset "double" (Toy.ctx "float") Hc) as [Hvalid _].
  destruct (Hset "half" (Toy.ctx "float") Hc) as [_ Hinvalid].
  split; [apply Hvalid; right; reflexivity|].
  split; [apply Hinvalid; by_evaluation|].
  exact (f_equal fst (Hdev (DeviceDescriptor_GPUDevice 3) (Toy.ctx "float") Hc)).
Defined.

Lemma eval_outputs_reversed_once_witness :
  (eval (Toy.ctx "float") Toy.op (Some Toy.at5) (Some Toy.at5)).1
  = Ok (ForwardBackward (T:=Toy.carrier) Toy.forward_output (Toy.backward_output 5))
  ∧ (1 ∈ dom Toy.forward_output ↔ 1 ∈ Outputs Toy.op)
  ∧ dom (Toy.backward_output 5)
    = dom (backward_call (Toy.ctx "float") Toy.op (Some Toy.at5) (Some Toy.at5)
             Toy.forward_output).
Proof.
  assert ((eval (Toy.ctx "float") Toy.op (Some Toy.at5) (Some Toy.at5)).1
          = Ok (ForwardBackward (T:=Toy.carrier) Toy.forward_output
                  (Toy.backward_output 5))) as Heval
    by (vm_compute; reflexivity).
  split; [exact Heval|].
  destruct (eval_outputs_reversed_once (Toy.ctx "float") Toy.op (Some Toy.at5)
              (Some Toy.at5) _ Heval) as (Hkeys & _ & Hbw).
  split; [exact (Hkeys 1)|].
  destruct (Hbw _ _ eq_refl) as [Hdom _]. exact Hdom.
Defined.

Lemma with_statement_deregisters_witness :
  _CONTEXT (with_statement 0 Toy.failing_body Toy.world_c).2 !! "c" = None.
Proof.
  apply (with_statement_deregisters Toy.failing_body Toy.world_c 0 (Toy.ctx "float")).
  - vm_compute. reflexivity.
  - intros w1 Hname. exact Hname.
Defined.

Lemma eval_without_input_map_skips_key_check_witness :
  check_keys None (Some Toy.at6) = Ok tt
  ∧ ∃ fo bo, (eval (Toy.ctx "float") Toy.op None (Some Toy.at6)).1
             = Ok (ForwardBackward fo bo).
Proof.
  destruct (eval_without_input_map_skips_key_check (Toy.ctx "float") Toy.op Toy.at6)
    as (Hcheck & _ & Hrun).
  - by_evaluation.
  - split; [exact Hcheck|].
    destruct Hrun as (fo & bo & Heval).
    + by_evaluation.
    + exists fo, bo. exact (f_equal fst Heval).
Defined.

Lemma get_context_idempotent_witness :
  ∃ l, get_context (Some "a") Toy.empty_world
       = (Ok l, (get_context (Some "a") Toy.empty_world).2)
       ∧ (get_context (Some "a")
            (get_contexts [Some "b"; None; Some "a"]
               (get_context (Some "a") Toy.empty_world).2)).1 = Ok l.
Proof.
  destruct (get_context_idempotent Toy.empty_world "a" [Some "b"; None; Some "a"])
    as (l & c & w1 & Hfirst & _ & _ & _ & Hagain & _).
  - intros k l Hk. vm_compute in Hk. discriminate.
  - exists l. rewrite Hfirst. cbn [snd]. split; [reflexivity|].
    rewrite Hagain. reflexivity.
Defined.

(** ** The further properties *)

Lemma get_new_context_registers_fresh_handle_witness :
  ∃ pre h post l c,
    ["a"; "default"; "7"; "8"] = (pre ++ h :: post)%list
    ∧ Forall (λ k, is_Some (_CONTEXT Toy.world_a_default !! k)) pre
    ∧ _CONTEXT Toy.world_a_default !! h = None
    ∧ heap Toy.world_a_default !! l = None
    ∧ name c = h
    ∧ get_new_context ["a"; "default"; "7"; "8"] Toy.world_a_default
      = Some (Ok l, mk_world (<[l := c]> (heap Toy.world_a_default))
                             (<[h := l]> (_CONTEXT Toy.world_a_default))).
Proof.
  apply (get_new_context_registers_fresh_handle
           ["a"; "default"; "7"; "8"] Toy.world_a_default).
  by_evaluation.
Defined.

Lemma reachable_registry_names_its_contexts_witness :
  ∃ c, heap Toy.world_a_default !! 1 = Some c ∧ name c = "default".
Proof.
  assert (reachable Toy.world_a_default) as Hr.
  { eapply rtc_l; [|eapply rtc_l; [|apply rtc_refl]].
    - exact (step_get_context (Some "a") initial_world _ _ (surjective_pairing _)).
    - exact (step_get_context None _ _ _ (surjective_pairing _)). }
  destruct (reachable_registry_names_its_contexts Toy.world_a_default Hr) as [Hreg _].
  apply (Hreg "default" 1). vm_compute. reflexivity.
Defined.

Lemma reachable_precision_is_valid_witness :
  (precision (Toy.ctx "float") = "float"
   ∧ precision_numpy (Toy.ctx "float") = Np.float32)
  ∨ (precision (Toy.ctx "float") = "double"
     ∧ precision_numpy (Toy.ctx "float") = Np.float64).
Proof.
  apply (reachable_precision_is_valid Toy.world_c 0 (Toy.ctx "float")).
  - apply rtc_once.
    exact (step_construct "c" (-1) "float" true initial_world _ _
             (surjective_pairing _)).
  - vm_compute. reflexivity.
Defined.

Lemma precision_assignment_is_seen_through_registry_witness :
  ∃ l w1 w2,
    get_context (Some "a") Toy.empty_world = (Ok l, w1)
    ∧ set_precision l "double" w1 = (Ok tt, w2)
    ∧ precision <$> heap w2 !! l = Some "double".
Proof.
  destruct (precision_assignment_is_seen_through_registry
              Toy.empty_world "a" "double")
    as (l & w1 & w2 & Hg & Hs & _ & Hp & _).
  - intros k l Hk. vm_compute in Hk. discriminate.
  - right. reflexivity.
  - exists l, w1, w2. split; [exact Hg|]. split; [exact Hs|exact Hp].
Defined.

Lemma nested_with_raises_KeyError_witness :
  (with_statement 0 (λ _, with_statement 0 Toy.failing_body) Toy.world_c).1
  = Raise KeyError.
Proof.
  rewrite (nested_with_raises_KeyError Toy.failing_body Toy.world_c 0 (Toy.ctx "float")).
  - reflexivity.
  - vm_compute. reflexivity.
  - intros w1. split; reflexivity.
Defined.

Lemma enter_exit_round_trip_witness :
  __exit__ 0 None (__enter__ 0 Toy.world_c).2 = (Ok tt, Toy.world_c).
Proof.
  apply (enter_exit_round_trip Toy.world_c 0 (Toy.ctx "float") None).
  - vm_compute. reflexivity.
  - vm_compute. reflexivity.
Defined.

Lemma get_context_in_with_returns_entered_witness :
  (with_statement 0 (λ _, get_context (Some "c")) Toy.world_c).1 = Ok 0.
Proof.
  rewrite (get_context_in_with_returns_entered Toy.world_c 0 (Toy.ctx "float")).
  - reflexivity.
  - vm_compute. reflexivity.
Defined.

Lemma methods_change_registry_only_at_own_name_witness :
  _CONTEXT Toy.world_c_entered !! "c" = Some 0
  ∧ _CONTEXT (invoke 0 (Call_exit None) Toy.world_c_entered).2 !! "default"
    = _CONTEXT Toy.world_c_entered !! "default".
Proof.
  split; [vm_compute; reflexivity|].
  destruct (methods_change_registry_only_at_own_name Toy.world_c_entered 0
              (Toy.ctx "float") (Call_exit None)) as [Hframe _].
  - vm_compute. reflexivity.
  - apply Hframe. by_evaluation.
Defined.

Lemma eval_KeyError_iff_output_missing_witness :
  eval (B:=Toy.lossy_backend) (Toy.ctx "float") Toy.op None (Some Toy.at6)
  = (Raise KeyError,
     forward_trace (B:=Toy.lossy_backend) (Toy.ctx "float") Toy.op None).
Proof.
  apply (eval_KeyError_iff_output_missing (B:=Toy.lossy_backend)
           (Toy.ctx "float") Toy.op None (Some Toy.at6)).
  - reflexivity.
  - exists 2. split; [by_evaluation|vm_compute; reflexivity].
Defined.

Lemma eval_calls_Forward_with_all_outputs_witness :
  ∃ outputs retain rest,
    (eval (Toy.ctx "float") Toy.op (Some Toy.at5) (Some Toy.at5)).2
    = Call_sanitize_var_map (Some Toy.at5) (Toy.ctx "float")
      :: Call_Forward Toy.op (sanitize_var_map (Some Toy.at5) (Toy.ctx "float"))
           outputs (device (Toy.ctx "float")) retain
      :: rest
    ∧ retain = list_to_set (Outputs Toy.op).
Proof.
  destruct (eval_calls_Forward_with_all_outputs (Toy.ctx "float") Toy.op
              (Some Toy.at5) (Some Toy.at5))
    as (outputs & retain & rest & Htrace & _ & Hretain & _).
  - vm_compute. reflexivity.
  - exists outputs, retain, rest. split; [exact Htrace|exact Hretain].
Defined.

Lemma model_path_layout_witness :
  LocalExecutionContext_init "/x" (-1) "float" true = Ok Toy.ctx_slash
  ∧ model_path Toy.ctx_slash = "/x".
Proof.
  assert (LocalExecutionContext_init "/x" (-1) "float" true = Ok Toy.ctx_slash)
    as Hinit by (vm_compute; reflexivity).
  split; [exact Hinit|].
  apply (model_path_layout "/x" (-1)%Z "float" true Toy.ctx_slash Hinit).
  reflexivity.
Defined.

End Runs.
